(** * A* pathfinding on a grid (src/pathfinding.js)

    Shallow embedding of the classes [Node], [Grid] and [Pathfinder] and
    proofs about [Pathfinder.findPath].

    Modelling conventions.
    - Grid dimensions, the coordinates of nodes and the costs g, h, f are
      integers ([Z]).  The coordinates that a caller passes to [getNode],
      [setWalkable] and [findPath] are arbitrary numbers: module [Api] holds
      these entry points on rational arguments, modules [Grid] and
      [Pathfinder] hold them on integers, as the loops call them, and the two
      agree on integer-valued numbers.
    - The grid is the shared store: [nodes] is the two-dimensional array of
      Node objects.  A reference to a Node object is the position [(x, y)] of
      the slot [nodes[y][x]] that holds it; the open set, the closed set and
      the [parent] fields hold such references, and every read or write of a
      field goes through the store, so that an in-place update of a node is
      seen by every holder of a reference to it.
    - Reading an array slot may yield [undefined], and reading a property of
      [undefined] raises a TypeError: array reads return [option] and the
      methods that perform them return a completion ([Normal] or [Throw]).
    - The two [while] loops take fuel; one unit of fuel is one execution of
      the loop body. *)

From stdpp Require Import base numbers list gmap sets fin_sets.
From Stdlib Require QArith.

Local Open Scope Z_scope.

(** ** Completions: a normal return or a thrown TypeError *)

Inductive Completion (A : Type) : Type :=
  | Normal (a : A)
  | Throw.
Arguments Normal {A} a.
Arguments Throw {A}.

#[global] Instance Completion_ret : MRet Completion := fun A a => Normal a.
#[global] Instance Completion_bind : MBind Completion := fun A B k m =>
  match m with
  | Normal a => k a
  | Throw => Throw
  end.

(** A [for ... of] loop whose body may throw. *)
Fixpoint forOf {A S : Type} (body : S → A → Completion S) (l : list A) (s : S)
  : Completion S :=
  match l with
  | [] => Normal s
  | a :: l' => s' ← body s a; forOf body l' s'
  end.

(** [arr[i]]: [None] is [undefined]. *)
Definition index {A : Type} (arr : list A) (i : Z) : option A :=
  if decide (0 ≤ i) then arr !! Z.to_nat i else None.

(** A reference to the Node object held in slot [nodes[y][x]]. *)
Abbreviation Ref := (Z * Z)%type.

(** A path element [{x, y}]. *)
Abbreviation Coord := (Z * Z)%type.

(** ** class Node *)

Module Node.
Record t : Type := mk {
  x : Z;
  y : Z;
  walkable : bool;
  g : Z;
  h : Z;
  f : Z;
  parent : option Ref
}.

(** [new Node(x, y, walkable)] *)
Definition new (x y : Z) (walkable : bool) : t :=
  mk x y walkable 0 0 0 None.

Definition getCost (n : t) : Z := f n.
End Node.

(** ** class Grid *)

Module Grid.
Record t : Type := mk {
  width : Z;
  height : Z;
  nodes : list (list Node.t)
}.

Definition _initializeGrid (width height : Z) : list (list Node.t) :=
  (λ y, (λ x, Node.new x y true) <$> seqZ 0 width) <$> seqZ 0 height.

Definition new (width height : Z) : t :=
  mk width height (_initializeGrid width height).

(** [this.nodes[y][x]] when [this.nodes[y]] is an array. *)
Definition slot (grid : t) (r : Ref) : option Node.t :=
  row ← index (nodes grid) r.2; index row r.1.

(** Reading through a reference.  A reference held by the program always
    designates a live object; [deref] is total and the default is never
    reached from a reference obtained from [getNode]. *)
Definition deref (grid : t) (r : Ref) : Node.t :=
  default (Node.new r.1 r.2 false) (slot grid r).

(** Writing through a reference: the object in the store is replaced by
    [upd] of itself. *)
Definition update (grid : t) (r : Ref) (upd : Node.t → Node.t) : t :=
  if decide (0 ≤ r.1 ∧ 0 ≤ r.2)
  then mk (width grid) (height grid)
          (alter (alter upd (Z.to_nat r.1)) (Z.to_nat r.2) (nodes grid))
  else grid.

Definition _isInBounds (grid : t) (x y : Z) : bool :=
  bool_decide (0 ≤ x) && bool_decide (x < width grid)
  && bool_decide (0 ≤ y) && bool_decide (y < height grid).

(** [this._isInBounds(x, y) && this.nodes[y][x].walkable] *)
Definition _isWalkable (grid : t) (x y : Z) : Completion bool :=
  if _isInBounds grid x y then
    match index (nodes grid) y with
    | None => Throw
    | Some row =>
        match index row x with
        | None => Throw
        | Some n => Normal (Node.walkable n)
        end
    end
  else Normal false.

(** [None] is [null] (or a falsy [undefined]). *)
Definition getNode (grid : t) (x y : Z) : Completion (option Ref) :=
  w ← _isWalkable grid x y;
  if (w : bool) then
    match index (nodes grid) y with
    | None => Throw
    | Some row =>
        match index row x with
        | None => Normal None
        | Some _ => Normal (Some (x, y))
        end
    end
  else Normal None.

Definition setWalkable (grid : t) (x y : Z) (walkable : bool) : Completion t :=
  if _isInBounds grid x y then
    match slot grid (x, y) with
    | None => Throw
    | Some _ =>
        Normal (update grid (x, y) (λ n,
          Node.mk (Node.x n) (Node.y n) walkable
                  (Node.g n) (Node.h n) (Node.f n) (Node.parent n)))
    end
  else Normal grid.

Definition directions (diagonal : bool) : list (Z * Z) :=
  [ (0, -1);   (* North *)
    (1, 0);    (* East *)
    (0, 1);    (* South *)
    (-1, 0) ]  (* West *)
  ++ (if diagonal
      then [ (1, -1);    (* NE *)
             (1, 1);     (* SE *)
             (-1, 1);    (* SW *)
             (-1, -1) ]  (* NW *)
      else []).

Definition getNeighbors (grid : t) (node : Ref) (diagonal : bool)
  : Completion (list Ref) :=
  forOf (λ neighbors dir,
           let newX := Node.x (deref grid node) + dir.1 in
           let newY := Node.y (deref grid node) + dir.2 in
           neighbor ← getNode grid newX newY;
           match neighbor with
           | Some nb => Normal (neighbors ++ [nb])
           | None => Normal neighbors
           end)
        (directions diagonal) [].

Definition clear (n : Node.t) : Node.t :=
  Node.mk (Node.x n) (Node.y n) (Node.walkable n) 0 0 0 None.

Definition reset (grid : t) : Completion t :=
  forOf (λ gr y,
           forOf (λ gr x,
                    match slot gr (x, y) with
                    | None => Throw
                    | Some _ => Normal (update gr (x, y) clear)
                    end)
                 (seqZ 0 (width gr)) gr)
        (seqZ 0 (height grid)) grid.
End Grid.

(** ** class Pathfinder *)

Module Pathfinder.
Import Grid.

(** The local variables of [findPath] that live across loop iterations,
    together with the store that the references point into. *)
Record SearchState : Type := mkState {
  grid : Grid.t;
  openSet : list Ref;
  closedSet : gset Ref
}.

(** What a call of [findPath] does. *)
Inductive Outcome : Type :=
  | Returned (grid : Grid.t) (path : list Coord)
  | Threw
  | OutOfFuel.

(** Manhattan distance *)
Definition _heuristic (nodeA nodeB : Node.t) : Z :=
  Z.abs (Node.x nodeA - Node.x nodeB) + Z.abs (Node.y nodeA - Node.y nodeB).

(** The [while (current !== null)] loop of [_reconstructPath]. *)
Fixpoint _reconstructPath_loop (fuel : nat) (grid : Grid.t)
    (current : option Ref) (path : list Coord) : option (list Coord) :=
  match current with
  | None => Some path
  | Some c =>
      match fuel with
      | O => None
      | S fuel' =>
          _reconstructPath_loop fuel' grid
            (Node.parent (deref grid c))
            ((Node.x (deref grid c), Node.y (deref grid c)) :: path)
      end
  end.

Definition _reconstructPath (fuel : nat) (grid : Grid.t) (node : Ref)
  : option (list Coord) :=
  _reconstructPath_loop fuel grid (Some node) [].

(** The scan [for (let i = 1; i < openSet.length; i++)], from index [i] on;
    [rest] is [openSet.slice(i)]. *)
Fixpoint lowestF (grid : Grid.t) (rest : list Ref) (i : nat)
    (current : Ref) (currentIndex : nat) : Ref * nat :=
  match rest with
  | [] => (current, currentIndex)
  | r :: rest' =>
      if bool_decide (Node.f (deref grid r) < Node.f (deref grid current))
      then lowestF grid rest' (S i) r i
      else lowestF grid rest' (S i) current currentIndex
  end.

(** [current] and [currentIndex] after the scan; [None] on an empty open
    set (the loop condition fails). *)
Definition select (st : SearchState) : option (Ref * nat) :=
  match openSet st with
  | [] => None
  | first :: rest => Some (lowestF (grid st) rest 1 first 0)
  end.

(** The four assignments to [neighbor] at the end of the inner loop body. *)
Definition assign (current endNode : Ref) (tentativeG : Z)
    (st : SearchState) (neighbor : Ref) : SearchState :=
  mkState
    (update (grid st) neighbor (λ n,
       let hv := _heuristic n (deref (grid st) endNode) in
       Node.mk (Node.x n) (Node.y n) (Node.walkable n)
               tentativeG hv (tentativeG + hv) (Some current)))
    (openSet st) (closedSet st).

(** One execution of the body of [for (const neighbor of neighbors)]. *)
Definition visit (current endNode : Ref) (st : SearchState) (neighbor : Ref)
  : SearchState :=
  if decide (neighbor ∈ closedSet st) then st
  else
    let tentativeG := Node.g (deref (grid st) current) + 1 in
    if decide (neighbor ∈ openSet st) then
      if bool_decide (Node.g (deref (grid st) neighbor) ≤ tentativeG) then st
      else assign current endNode tentativeG st neighbor
    else
      assign current endNode tentativeG
        (mkState (grid st) (openSet st ++ [neighbor]) (closedSet st)) neighbor.

(** The state after [openSet.splice(currentIndex, 1)] and
    [closedSet.add(current)]. *)
Definition close (st : SearchState) (current : Ref) (currentIndex : nat)
  : SearchState :=
  mkState (grid st) (delete currentIndex (openSet st))
          ({[current]} ∪ closedSet st).

(** The rest of the loop body once [current] is known not to be the goal. *)
Definition expand (endNode : Ref) (diagonal : bool) (st : SearchState)
    (current : Ref) (currentIndex : nat) : Completion SearchState :=
  let st1 := close st current currentIndex in
  neighbors ← getNeighbors (grid st1) current diagonal;
  Normal (foldl (visit current endNode) st1 neighbors).

(** The main [while (openSet.length > 0)] loop.  [fuel] bounds the number
    of executions of its body, [rfuel] those of the loop of
    [_reconstructPath]. *)
Fixpoint search (fuel rfuel : nat) (endNode : Ref) (diagonal : bool)
    (st : SearchState) : Outcome :=
  match select st with
  | None => Returned (grid st) []
  | Some (current, currentIndex) =>
      match fuel with
      | O => OutOfFuel
      | S fuel' =>
          if decide (current = endNode) then
            match _reconstructPath rfuel (grid st) endNode with
            | Some path => Returned (grid st) path
            | None => OutOfFuel
            end
          else
            match expand endNode diagonal st current currentIndex with
            | Throw => Threw
            | Normal st' => search fuel' rfuel endNode diagonal st'
            end
      end
  end.

(** The state on entry to the main loop. *)
Definition start (grid : Grid.t) (startNode endNode : Ref) : SearchState :=
  mkState
    (update grid startNode (λ n,
       let hv := _heuristic n (deref grid endNode) in
       Node.mk (Node.x n) (Node.y n) (Node.walkable n)
               0 hv hv (Node.parent n)))
    [startNode] ∅.

Definition findPath_fuel (fuel : nat) (grid : Grid.t)
    (startX startY endX endY : Z) (diagonal : bool) : Outcome :=
  match reset grid with
  | Throw => Threw
  | Normal grid0 =>
      match getNode grid0 startX startY with
      | Throw => Threw
      | Normal startNode =>
          match getNode grid0 endX endY with
          | Throw => Threw
          | Normal endNode =>
              match startNode, endNode with
              | Some s, Some e =>
                  search fuel fuel e diagonal (start grid0 s e)
              | _, _ => Returned grid0 []
              end
          end
      end
  end.

(** Number of slots of the grid. *)
Definition cells (grid : Grid.t) : nat :=
  Z.to_nat (width grid * height grid).

(** [findPath], each loop being given [width * height] units of fuel. *)
Definition findPath (grid : Grid.t) (startX startY endX endY : Z)
    (diagonal : bool) : Outcome :=
  findPath_fuel (cells grid) grid startX startY endX endY diagonal.
End Pathfinder.

(** ** The entry points called with arbitrary numbers *)

Module Api.
Import Grid Pathfinder.

(** A number passed as a coordinate: any rational. *)
Definition Number : Type := QArith_base.Q.

Definition ofInt (z : Z) : Number := QArith_base.inject_Z z.

(** [a >= b] and [a < b] *)
Definition geq (a b : Number) : bool := QArith_base.Qle_bool b a.
Definition lt (a b : Number) : bool := negb (QArith_base.Qle_bool b a).

Definition isInteger (q : Number) : bool :=
  QArith_base.Qnum q mod Z.pos (QArith_base.Qden q) =? 0.

(** The integer that an integer-valued number denotes. *)
Definition toInt (q : Number) : Z :=
  QArith_base.Qnum q / Z.pos (QArith_base.Qden q).

(** [arr[i]] for a number [i]: an array has elements at integer keys only;
    [None] is [undefined]. *)
Definition element {A : Type} (arr : list A) (i : Number) : option A :=
  if isInteger i then index arr (toInt i) else None.

Definition _isInBounds (grid : Grid.t) (x y : Number) : bool :=
  geq x (ofInt 0) && lt x (ofInt (width grid))
  && geq y (ofInt 0) && lt y (ofInt (height grid)).

(** [this._isInBounds(x, y) && this.nodes[y][x].walkable] *)
Definition _isWalkable (grid : Grid.t) (x y : Number) : Completion bool :=
  if _isInBounds grid x y then
    match element (nodes grid) y with
    | None => Throw
    | Some row =>
        match element row x with
        | None => Throw
        | Some n => Normal (Node.walkable n)
        end
    end
  else Normal false.

(** The node returned is the object in slot [nodes[y][x]]. *)
Definition getNode (grid : Grid.t) (x y : Number) : Completion (option Ref) :=
  w ← _isWalkable grid x y;
  if (w : bool) then
    match element (nodes grid) y with
    | None => Throw
    | Some row =>
        match element row x with
        | None => Normal None
        | Some _ => Normal (Some (toInt x, toInt y))
        end
    end
  else Normal None.

Definition setWalkable (grid : Grid.t) (x y : Number) (walkable : bool)
  : Completion Grid.t :=
  if _isInBounds grid x y then
    match element (nodes grid) y with
    | None => Throw
    | Some row =>
        match element row x with
        | None => Throw
        | Some _ =>
            Normal (update grid (toInt x, toInt y) (λ n,
              Node.mk (Node.x n) (Node.y n) walkable
                      (Node.g n) (Node.h n) (Node.f n) (Node.parent n)))
        end
    end
  else Normal grid.

Definition findPath_fuel (fuel : nat) (grid : Grid.t)
    (startX startY endX endY : Number) (diagonal : bool) : Outcome :=
  match reset grid with
  | Throw => Threw
  | Normal grid0 =>
      match getNode grid0 startX startY with
      | Throw => Threw
      | Normal startNode =>
          match getNode grid0 endX endY with
          | Throw => Threw
          | Normal endNode =>
              match startNode, endNode with
              | Some s, Some e =>
                  search fuel fuel e diagonal (start grid0 s e)
              | _, _ => Returned grid0 []
              end
          end
      end
  end.

Definition findPath (grid : Grid.t) (startX startY endX endY : Number)
    (diagonal : bool) : Outcome :=
  findPath_fuel (cells grid) grid startX startY endX endY diagonal.
End Api.

Import Grid Pathfinder.

(** * Well-formed grids and store lemmas *)

(** In bounds, as a proposition on references. *)
Definition inb (g : Grid.t) (r : Ref) : Prop :=
  (0 ≤ r.1 ∧ r.1 < width g) ∧ (0 ≤ r.2 ∧ r.2 < height g).

(** In bounds and walkable: what [getNode] accepts. *)
Definition walk (g : Grid.t) (r : Ref) : Prop :=
  inb g r ∧ Node.walkable (deref g r) = true.

(** A grid as the constructor builds it and the methods keep it: [height]
    rows of [width] nodes, the node in slot [nodes[y][x]] carrying the
    coordinates [(x, y)]. *)
Record wf (g : Grid.t) : Prop := mk_wf {
  wf_rows : length (nodes g) = Z.to_nat (height g);
  wf_cols : ∀ row, row ∈ nodes g → length row = Z.to_nat (width g);
  wf_pos : ∀ r n, slot g r = Some n → Node.x n = r.1 ∧ Node.y n = r.2
}.

(** The part of a node that a search must leave alone. *)
Definition frame (n : Node.t) : Z * Z * bool :=
  (Node.x n, Node.y n, Node.walkable n).

Definition frames (g : Grid.t) : list (list (Z * Z * bool)) :=
  fmap (M := list) frame <$> nodes g.

Record same_frame (g g' : Grid.t) : Prop := mk_same_frame {
  sf_width : width g' = width g;
  sf_height : height g' = height g;
  sf_frames : frames g' = frames g
}.

#[global] Instance inb_dec g r : Decision (inb g r).
Proof. unfold inb. apply _. Defined.

#[global] Instance walk_dec g r : Decision (walk g r).
Proof. unfold walk. apply _. Defined.

(** The cell reached from [r] by the direction step [dir]. *)
Definition offset (r : Ref) (dir : Z * Z) : Ref := (r.1 + dir.1, r.2 + dir.2).

Section Store.
Implicit Types (g : Grid.t) (r : Ref) (n : Node.t).

Lemma index_Some {A} (l : list A) i a :
  index l i = Some a ↔ 0 ≤ i ∧ l !! Z.to_nat i = Some a.
Proof. unfold index. case_decide; [tauto|]. split; [done|tauto]. Qed.

Lemma index_lt {A} (l : list A) i :
  0 ≤ i → i < Z.of_nat (length l) → is_Some (index l i).
Proof.
  intros ??. unfold index. rewrite decide_True by done.
  apply lookup_lt_is_Some. lia.
Qed.

Lemma _isInBounds_true g x y : _isInBounds g x y = true ↔ inb g (x, y).
Proof.
  unfold _isInBounds, inb. simpl.
  rewrite !andb_true_iff, !bool_decide_eq_true. tauto.
Qed.

Lemma _isInBounds_false g x y : _isInBounds g x y = false ↔ ¬ inb g (x, y).
Proof. rewrite <- _isInBounds_true. by destruct (_isInBounds g x y). Qed.

Lemma slot_inb g r : wf g → inb g r → is_Some (slot g r).
Proof.
  intros Hwf [[??] [??]]. unfold slot.
  destruct (index_lt (nodes g) r.2) as [row Hrow]; [done| |].
  { rewrite (wf_rows g Hwf). lia. }
  rewrite Hrow. simpl. apply index_lt; [done|].
  apply index_Some in Hrow as [_ Hrow].
  rewrite (wf_cols g Hwf row); [lia|]. by eapply list_elem_of_lookup_2.
Qed.

Lemma slot_Some_inb g r n : wf g → slot g r = Some n → inb g r.
Proof.
  intros Hwf. unfold slot, inb.
  destruct (index (nodes g) r.2) as [row|] eqn:Hrow; [|done]. simpl.
  intros Hn. apply index_Some in Hrow as [? Hrow].
  apply index_Some in Hn as [? Hn].
  pose proof (lookup_lt_Some _ _ _ Hrow) as H1.
  pose proof (lookup_lt_Some _ _ _ Hn) as H2.
  rewrite (wf_rows g Hwf) in H1.
  rewrite (wf_cols g Hwf row) in H2 by (by eapply list_elem_of_lookup_2).
  lia.
Qed.

Lemma slot_deref g r n : slot g r = Some n → deref g r = n.
Proof. unfold deref. by intros ->. Qed.

Lemma deref_slot g r : wf g → inb g r → slot g r = Some (deref g r).
Proof.
  intros Hwf Hr. destruct (slot_inb g r Hwf Hr) as [n Hn].
  by rewrite (slot_deref _ _ _ Hn).
Qed.

Lemma deref_x g r : wf g → inb g r → Node.x (deref g r) = r.1.
Proof. intros Hwf Hr. by apply (wf_pos g Hwf), deref_slot. Qed.

Lemma deref_y g r : wf g → inb g r → Node.y (deref g r) = r.2.
Proof. intros Hwf Hr. by apply (wf_pos g Hwf), deref_slot. Qed.

Lemma width_update g r upd : width (update g r upd) = width g.
Proof. unfold update. by case_decide. Qed.

Lemma height_update g r upd : height (update g r upd) = height g.
Proof. unfold update. by case_decide. Qed.

Lemma index_alter {A} (upd : A → A) (l : list A) i j :
  0 ≤ i →
  index (alter upd (Z.to_nat i) l) j =
  if decide (i = j) then upd <$> index l i else index l j.
Proof.
  intros Hi. unfold index. destruct (decide (i = j)) as [<-|Hij].
  - destruct (decide (0 ≤ i)); [|done]. apply list_lookup_alter_eq.
  - case_decide; [|done]. apply list_lookup_alter_ne. lia.
Qed.

Lemma index_neg {A} (l : list A) i : ¬ 0 ≤ i → index l i = None.
Proof. intros. unfold index. by rewrite decide_False. Qed.

Lemma slot_update g r upd r' :
  slot (update g r upd) r' =
  if decide (r = r') then upd <$> slot g r else slot g r'.
Proof.
  unfold update, slot. destruct r as [x y], r' as [x' y']. simpl.
  destruct (decide (0 ≤ x ∧ 0 ≤ y)) as [[??]|Hneg]; simpl.
  - rewrite index_alter by done.
    destruct (decide (y = y')) as [<-|Hy].
    + destruct (index (nodes g) y) as [row|]; simpl; [|by case_decide].
      rewrite index_alter by done.
      destruct (decide (x = x')) as [<-|Hx].
      * by rewrite decide_True.
      * by rewrite decide_False by congruence.
    + by rewrite decide_False by congruence.
  - case_decide; [|done]. simplify_eq.
    destruct (decide (0 ≤ y')).
    + destruct (index (nodes g) y'); [simpl|done].
      rewrite index_neg; [done|tauto].
    + by rewrite index_neg.
Qed.

Lemma slot_update_ne g r upd r' :
  r ≠ r' → slot (update g r upd) r' = slot g r'.
Proof. intros. by rewrite slot_update, decide_False. Qed.

Lemma deref_update_ne g r upd r' :
  r ≠ r' → deref (update g r upd) r' = deref g r'.
Proof. intros. unfold deref. by rewrite slot_update_ne. Qed.

Lemma deref_update_eq g r upd :
  is_Some (slot g r) → deref (update g r upd) r = upd (deref g r).
Proof.
  intros [n Hn]. unfold deref. rewrite slot_update, decide_True by done.
  by rewrite Hn.
Qed.

Lemma frames_update g r upd :
  (∀ n, frame (upd n) = frame n) → frames (update g r upd) = frames g.
Proof.
  intros Hupd. unfold update, frames. case_decide; [simpl|done].
  rewrite (list_fmap_alter _ _ id).
  - apply list_alter_id. done.
  - apply Forall_forall. intros row _. simpl.
    rewrite (list_fmap_alter _ _ id).
    + apply list_alter_id. done.
    + apply Forall_forall. intros n _. apply Hupd.
Qed.

Lemma same_frame_refl g : same_frame g g.
Proof. done. Qed.

Lemma same_frame_trans g1 g2 g3 :
  same_frame g1 g2 → same_frame g2 g3 → same_frame g1 g3.
Proof. intros [???] [???]. split; congruence. Qed.

Lemma same_frame_update g r upd :
  (∀ n, frame (upd n) = frame n) → same_frame g (update g r upd).
Proof.
  intros. split; auto using width_update, height_update, frames_update.
Qed.

(** Slots of grids with the same frames hold nodes with the same frame. *)
Lemma same_frame_slot g g' r :
  same_frame g g' → frame <$> slot g' r = frame <$> slot g r.
Proof.
  intros [_ _ Hf]. unfold frames in Hf. unfold slot, index.
  destruct (decide (0 ≤ r.2)); [|done].
  assert (fmap (M := list) frame <$> nodes g' !! Z.to_nat r.2
          = fmap (M := list) frame <$> nodes g !! Z.to_nat r.2) as Hrow.
  { by rewrite <- !list_lookup_fmap, Hf. }
  destruct (nodes g' !! Z.to_nat r.2) as [row'|],
           (nodes g !! Z.to_nat r.2) as [row|]; simplify_eq/=; [|done].
  destruct (decide (0 ≤ r.1)); [|done].
  by rewrite <- !list_lookup_fmap, Hrow.
Qed.

Lemma same_frame_wf g g' : same_frame g g' → wf g → wf g'.
Proof.
  intros Hsf Hwf. pose proof Hsf as [Hw Hh Hf]. unfold frames in Hf. split.
  - rewrite Hh, <- (wf_rows g Hwf).
    by rewrite <- (length_fmap (fmap (M := list) frame) (nodes g')), Hf, length_fmap.
  - intros row' [i Hi]%list_elem_of_lookup_1.
    assert ((fmap (M := list) frame <$> nodes g) !! i = Some (frame <$> row')) as Hrow.
    { by rewrite <- Hf, list_lookup_fmap, Hi. }
    rewrite list_lookup_fmap in Hrow.
    destruct (nodes g !! i) as [row|] eqn:Hgi; simplify_eq/=.
    rewrite Hw, <- (wf_cols g Hwf row) by (by eapply list_elem_of_lookup_2).
    by rewrite <- (length_fmap frame row'), <- Hrow, length_fmap.
  - intros r n' Hn'. pose proof (same_frame_slot g g' r Hsf) as Hs.
    rewrite Hn' in Hs. destruct (slot g r) as [n|] eqn:Hn; simplify_eq/=.
    destruct (wf_pos g Hwf r n Hn). split; congruence.
Qed.

Lemma same_frame_inb g g' r : same_frame g g' → inb g' r ↔ inb g r.
Proof. intros [Hw Hh _]. unfold inb. by rewrite Hw, Hh. Qed.

Lemma same_frame_walkable g g' r :
  same_frame g g' → wf g → inb g r →
  Node.walkable (deref g' r) = Node.walkable (deref g r).
Proof.
  intros Hsf Hwf Hr. pose proof (same_frame_slot g g' r Hsf) as Hs.
  rewrite (deref_slot g r Hwf Hr) in Hs.
  rewrite (deref_slot g' r) in Hs.
  - unfold frame in Hs. by simplify_eq/=.
  - by eapply same_frame_wf.
  - by apply (same_frame_inb g g' r Hsf).
Qed.

Lemma same_frame_walk g g' r : same_frame g g' → wf g → walk g' r ↔ walk g r.
Proof.
  intros Hsf Hwf. unfold walk. rewrite (same_frame_inb g g' r Hsf).
  split; intros [Hr Hw]; split; try done.
  - by rewrite <- (same_frame_walkable g g' r).
  - by rewrite (same_frame_walkable g g' r).
Qed.
End Store.

(** * The methods of Grid on a well-formed grid *)

Section Loops.
Context {A S : Type}.
Implicit Types (body : S → A → Completion S) (l : list A) (s : S).

(** Loop invariant rule for [forOf]: [P done s] relates the state to the
    elements already processed. *)
Lemma forOf_inv body (P : list A → S → Prop) l s :
  P [] s →
  (∀ done a s, P done s → a ∈ l →
     ∃ s', body s a = Normal s' ∧ P (done ++ [a]) s') →
  ∃ s', forOf body l s = Normal s' ∧ P l s'.
Proof.
  intros Hinit Hstep.
  cut (∀ k done s, P done s → (∀ a, a ∈ k → a ∈ l) →
         ∃ s', forOf body k s = Normal s' ∧ P (done ++ k) s').
  { intros Hcut. apply (Hcut l [] s); auto. }
  induction k as [|a k IH]; intros done s0 HP Hin; simpl.
  - exists s0. by rewrite app_nil_r.
  - destruct (Hstep done a s0 HP) as (s1 & -> & HP1).
    { apply Hin. left. }
    simpl. destruct (IH (done ++ [a]) s1 HP1) as (s2 & Hs2 & HP2).
    { intros b Hb. apply Hin. by right. }
    exists s2. split; [done|]. by rewrite <- app_assoc in HP2.
Qed.

Lemma forOf_Normal body (step : S → A → S) l s :
  (∀ s a, a ∈ l → body s a = Normal (step s a)) →
  forOf body l s = Normal (foldl step s l).
Proof.
  revert s. induction l as [|a l IH]; intros s Hbody; [done|]. simpl.
  rewrite Hbody by left. simpl. apply IH. intros. apply Hbody. by right.
Qed.
End Loops.

Section GridMethods.
Implicit Types (g : Grid.t) (r : Ref) (n : Node.t).

Lemma _isWalkable_wf g x y :
  wf g → _isWalkable g x y = Normal (bool_decide (walk g (x, y))).
Proof.
  intros Hwf. unfold _isWalkable.
  destruct (_isInBounds g x y) eqn:Hb.
  - apply _isInBounds_true in Hb.
    pose proof (deref_slot g (x, y) Hwf Hb) as Hs. unfold slot in Hs.
    simpl in Hs. destruct (index (nodes g) y) as [row|]; [|done].
    simpl in Hs. rewrite Hs. f_equal.
    destruct (decide (walk g (x, y))) as [Hw|Hw].
    + rewrite bool_decide_eq_true_2 by done. apply Hw.
    + rewrite bool_decide_eq_false_2 by done.
      apply not_true_is_false. intros ?. by apply Hw.
  - apply _isInBounds_false in Hb.
    rewrite bool_decide_eq_false_2; [done|]. by intros [? _].
Qed.

Lemma getNode_wf g x y :
  wf g →
  getNode g x y = Normal (if decide (walk g (x, y)) then Some (x, y) else None).
Proof.
  intros Hwf. unfold getNode. rewrite _isWalkable_wf by done. simpl.
  destruct (decide (walk g (x, y))) as [Hw|Hw].
  - rewrite bool_decide_eq_true_2 by done.
    pose proof (deref_slot g (x, y) Hwf (proj1 Hw)) as Hs. unfold slot in Hs.
    simpl in Hs. destruct (index (nodes g) y) as [row|]; [|done].
    simpl in Hs. by rewrite Hs.
  - by rewrite bool_decide_eq_false_2.
Qed.

Lemma getNeighbors_wf g r diagonal :
  wf g → inb g r →
  getNeighbors g r diagonal
  = Normal (filter (walk g) (offset r <$> directions diagonal)).
Proof.
  intros Hwf Hr. unfold getNeighbors.
  rewrite (forOf_Normal _ (λ neighbors dir,
             if decide (walk g (offset r dir))
             then neighbors ++ [offset r dir] else neighbors)).
  - f_equal. generalize (directions diagonal). intros l.
    cut (∀ acc : list Ref,
           foldl (λ neighbors dir,
                    if decide (walk g (offset r dir))
                    then neighbors ++ [offset r dir] else neighbors) acc l
           = acc ++ filter (walk g) (offset r <$> l)).
    { intros Hcut. apply Hcut. }
    induction l as [|dir l IH]; intros acc; simpl.
    + by rewrite app_nil_r.
    + rewrite IH. rewrite filter_cons. case_decide; [|done].
      by rewrite <- app_assoc.
  - intros neighbors dir _. simpl.
    rewrite deref_x, deref_y by done. rewrite getNode_wf by done. simpl.
    unfold offset. by case_decide.
Qed.

(** Two grids of the same shape with equal slots are equal. *)
Lemma grid_ext g g' :
  wf g → wf g' → width g = width g' → height g = height g' →
  (∀ r, slot g r = slot g' r) → g = g'.
Proof.
  intros Hwf Hwf' Hw Hh Hslot.
  destruct g as [w hh ns], g' as [w' hh' ns']. simpl in *. subst w' hh'.
  f_equal. apply list_eq. intros i.
  pose proof (wf_rows _ Hwf) as Hl. pose proof (wf_rows _ Hwf') as Hl'.
  simpl in *.
  destruct (ns !! i) as [row|] eqn:Hrow; last first.
  { apply lookup_ge_None in Hrow. symmetry. apply lookup_ge_None. lia. }
  destruct (ns' !! i) as [row'|] eqn:Hrow'; last first.
  { apply lookup_ge_None in Hrow'. apply lookup_lt_Some in Hrow. lia. }
  f_equal. apply list_eq. intros j.
  specialize (Hslot (Z.of_nat j, Z.of_nat i)). unfold slot, index in Hslot.
  simpl in Hslot. rewrite !decide_True in Hslot by lia.
  rewrite !Nat2Z.id in Hslot. rewrite Hrow, Hrow' in Hslot. simpl in Hslot.
  destruct (decide (0 ≤ Z.of_nat j)); [|lia]. by rewrite ?Nat2Z.id in Hslot.
Qed.

(** The grid that [reset] produces. *)
Definition cleared (g : Grid.t) : Grid.t :=
  Grid.mk (width g) (height g) (fmap (M := list) clear <$> nodes g).

Lemma slot_cleared g r : slot (cleared g) r = clear <$> slot g r.
Proof.
  unfold slot, index, cleared. simpl.
  destruct (decide (0 ≤ r.2)); [|done]. rewrite list_lookup_fmap.
  destruct (nodes g !! Z.to_nat r.2) as [row|]; [simpl|done].
  destruct (decide (0 ≤ r.1)); [|done]. by rewrite list_lookup_fmap.
Qed.

Lemma same_frame_cleared g : same_frame g (cleared g).
Proof.
  split; try done. unfold frames, cleared. simpl.
  rewrite <- list_fmap_compose. apply list_fmap_ext. intros _ row _. simpl.
  rewrite <- list_fmap_compose. by apply list_fmap_ext.
Qed.

Lemma reset_wf g : wf g → reset g = Normal (cleared g).
Proof.
  intros Hwf. unfold reset.
  destruct (forOf_inv
    (λ gr y, forOf (λ gr x,
               match slot gr (x, y) with
               | None => Throw
               | Some _ => Normal (update gr (x, y) clear)
               end) (seqZ 0 (width gr)) gr)
    (λ ys gr, same_frame g gr ∧
       ∀ r, slot gr r = if decide (r.2 ∈ ys) then clear <$> slot g r
                        else slot g r)
    (seqZ 0 (height g)) g) as (g' & -> & Hsf & Hslot).
  - split; [done|]. intros r. rewrite decide_False; [done|]. apply not_elem_of_nil.
  - intros ys y gr [Hsf Hslot] Hy. apply elem_of_seqZ in Hy.
    destruct (forOf_inv
      (λ gr x, match slot gr (x, y) with
               | None => Throw
               | Some _ => Normal (update gr (x, y) clear)
               end)
      (λ xs gr', same_frame g gr' ∧
         ∀ r, slot gr' r =
              if decide (r.2 ∈ ys ∨ (r.2 = y ∧ r.1 ∈ xs))
              then clear <$> slot g r else slot g r)
      (seqZ 0 (width gr)) gr) as (g' & -> & Hsf' & Hslot').
    + split; [done|]. intros r. rewrite Hslot.
      destruct (decide (r.2 ∈ ys)).
      * rewrite decide_True; [done|]. by left.
      * rewrite decide_False; [done|]. intros [?|[_ []%not_elem_of_nil]]; done.
    + intros xs x gr' [Hsf' Hslot'] Hx. apply elem_of_seqZ in Hx.
      rewrite (sf_width _ _ Hsf) in Hx.
      assert (inb g (x, y)) as Hb by (unfold inb; simpl; lia).
      assert (is_Some (slot gr' (x, y))) as [n Hn].
      { apply slot_inb; [by eapply same_frame_wf|].
        by apply (same_frame_inb g gr' (x, y)). }
      rewrite Hn. eexists; split; [done|]. split.
      { eapply same_frame_trans; [done|]. by apply same_frame_update. }
      intros r. rewrite slot_update. destruct (decide ((x, y) = r)) as [<-|Hne].
      * simpl. rewrite decide_True.
        2:{ right. split; [done|]. apply elem_of_app. right. left. }
        rewrite Hslot'. case_decide; [|done].
        destruct (slot g (x, y)); [simpl|done]. done.
      * rewrite Hslot'. destruct (decide (r.2 ∈ ys ∨ r.2 = y ∧ r.1 ∈ xs)) as [Hc|Hc].
        -- rewrite decide_True; [done|]. destruct Hc as [?|[??]]; [by left|].
           right. split; [done|]. apply elem_of_app. by left.
        -- rewrite decide_False; [done|]. intros [?|[? [?|Hin]%elem_of_app]].
           ++ apply Hc. by left.
           ++ apply Hc. by right.
           ++ apply list_elem_of_singleton in Hin. destruct r; simplify_eq/=.
    + exists g'. split; [done|]. split; [done|]. intros r. rewrite Hslot'.
      destruct (decide (r.2 ∈ ys ∨ r.2 = y ∧ r.1 ∈ seqZ 0 (width gr))) as [Hc|Hc].
      * destruct Hc as [?|[? Hin]].
        -- rewrite decide_True; [done|]. apply elem_of_app. by left.
        -- rewrite decide_True; [done|]. apply elem_of_app. right.
           by apply list_elem_of_singleton.
      * destruct (decide (r.2 ∈ ys ++ [y])) as [Hin|]; [|done].
        destruct (slot g r) as [n|] eqn:Hn; [|done].
        apply slot_Some_inb in Hn as [Hx _]; [|done].
        exfalso. apply Hc. apply elem_of_app in Hin as [?|Hin]; [by left|].
        apply list_elem_of_singleton in Hin. right. split; [done|].
        apply elem_of_seqZ. rewrite (sf_width _ _ Hsf). lia.
  - f_equal. apply grid_ext.
    + by eapply same_frame_wf.
    + eapply same_frame_wf; [apply same_frame_cleared|done].
    + by rewrite (sf_width _ _ Hsf).
    + by rewrite (sf_height _ _ Hsf).
    + intros r. rewrite Hslot, slot_cleared. case_decide as Hin; [done|].
      destruct (slot g r) as [n|] eqn:Hn; [|done].
      apply slot_Some_inb in Hn as [_ Hy]; [|done].
      exfalso. apply Hin. apply elem_of_seqZ. lia.
Qed.
End GridMethods.

(** * Selection of the node to expand *)

Section Selection.
Implicit Types (g : Grid.t) (r : Ref) (st : SearchState).

(** The f cost read through a reference. *)
Definition fOf (g : Grid.t) (r : Ref) : Z := Node.f (deref g r).

(** [current], at index [currentIndex], is the first minimum of [l]. *)
Definition first_min (g : Grid.t) (l : list Ref) (current : Ref)
    (currentIndex : nat) : Prop :=
  l !! currentIndex = Some current ∧
  ∀ j r, l !! j = Some r →
    fOf g current ≤ fOf g r ∧ ((j < currentIndex)%nat → fOf g current < fOf g r).

Lemma lowestF_first_min g rest pre current currentIndex c k :
  first_min g pre current currentIndex →
  lowestF g rest (length pre) current currentIndex = (c, k) →
  first_min g (pre ++ rest) c k.
Proof.
  revert pre current currentIndex.
  induction rest as [|r rest IH]; intros pre cur ci Hmin Hscan; simpl in Hscan.
  - simplify_eq. by rewrite app_nil_r.
  - destruct Hmin as [Hcur Hmin].
    assert (length (pre ++ [r]) = S (length pre)) as Hlen.
    { rewrite length_app. simpl. lia. }
    rewrite (cons_middle r pre rest), app_assoc.
    case_bool_decide as Hlt.
    + apply (IH (pre ++ [r]) r (length pre)); [|by rewrite Hlen].
      split; [by apply list_lookup_middle|].
      intros j r' Hj. apply lookup_app_Some in Hj as [Hj|[Hge Hj]].
      * destruct (Hmin j r' Hj) as [Hle _]. unfold fOf in *. lia.
      * apply list_lookup_singleton_Some in Hj as [Hj <-]. lia.
    + apply (IH (pre ++ [r]) cur ci); [|by rewrite Hlen].
      split; [by apply lookup_app_l_Some|].
      intros j r' Hj. apply lookup_app_Some in Hj as [Hj|[Hge Hj]].
      * by apply Hmin.
      * apply list_lookup_singleton_Some in Hj as [Hj <-].
        apply lookup_lt_Some in Hcur. unfold fOf in *. lia.
Qed.

Lemma select_first_min st c i :
  select st = Some (c, i) → first_min (grid st) (openSet st) c i.
Proof.
  unfold select. destruct (openSet st) as [|first rest]; [done|].
  intros [= Hscan].
  apply (lowestF_first_min (grid st) rest [first] first 0%nat c i); [|done].
  split; [done|]. intros [|j] r Hj; simplify_eq/=. lia.
Qed.

Lemma select_None st : select st = None ↔ openSet st = [].
Proof. unfold select. by destruct (openSet st). Qed.

Lemma select_is_Some st : openSet st ≠ [] → is_Some (select st).
Proof. unfold select. destruct (openSet st); [done|]. eauto. Qed.
End Selection.

(** * The invariant of the main loop *)

Definition manhattan (a b : Ref) : Z := Z.abs (a.1 - b.1) + Z.abs (a.2 - b.2).

(** [r] is one permitted direction step away from [p]. *)
Definition step_of (diagonal : bool) (p r : Coord) : Prop :=
  ∃ dir, dir ∈ directions diagonal ∧ r = offset p dir.

(** The node that a reference designates in the store of a search state. *)
Definition node (st : SearchState) (r : Ref) : Node.t := deref (grid st) r.

(** Discovered: in the open set or in the closed set. *)
Definition known (st : SearchState) (r : Ref) : Prop :=
  r ∈ openSet st ∨ r ∈ closedSet st.

(** Consecutive coordinates are one permitted direction step apart. *)
Definition Contiguous (diagonal : bool) (path : list Coord) : Prop :=
  ∀ i a b, path !! i = Some a → path !! S i = Some b → step_of diagonal a b.

Lemma Contiguous_snoc diagonal path a b :
  Contiguous diagonal path → last path = Some a → step_of diagonal a b →
  Contiguous diagonal (path ++ [b]).
Proof.
  intros Hp Hlast Hstep i x y Hx Hy. rewrite last_lookup in Hlast.
  apply lookup_app_Some in Hy as [Hy|[Hge Hy]].
  - pose proof (lookup_lt_Some _ _ _ Hy).
    rewrite lookup_app_l in Hx by lia. by eapply Hp.
  - apply list_lookup_singleton_Some in Hy as [Hi <-].
    rewrite lookup_app_l in Hx by lia.
    replace (pred (length path)) with i in Hlast by lia. by simplify_eq.
Qed.

(** Every set of in-bounds references has at most [width * height]
    elements. *)
Lemma size_inb (X : gset Ref) (g : Grid.t) :
  (∀ r, r ∈ X → inb g r) → (size X ≤ cells g)%nat.
Proof.
  intros HX. unfold cells.
  transitivity (length (cprod (seqZ 0 (width g)) (seqZ 0 (height g)))).
  - apply submseteq_length, NoDup_submseteq; [apply NoDup_elements|].
    intros [x y] [[??] [??]]%elem_of_elements%HX. simpl in *.
    apply list_elem_of_cprod. simpl. rewrite !elem_of_seqZ. lia.
  - rewrite list_cprod_list_prod, length_prod, !length_seqZ.
    destruct (decide (0 ≤ width g)), (decide (0 ≤ height g)).
    + rewrite Z2Nat.inj_mul by done. lia.
    + rewrite (Z2Nat.nonpos (height g)) by lia. lia.
    + rewrite (Z2Nat.nonpos (width g)) by lia. lia.
    + rewrite (Z2Nat.nonpos (width g)) by lia. lia.
Qed.

Lemma elem_of_delete_ne (l : list Ref) i c r :
  l !! i = Some c → r ∈ l → r ≠ c → r ∈ delete i l.
Proof.
  intros Hi Hr Hne. rewrite <- (take_drop_middle _ _ _ Hi) in Hr.
  rewrite delete_take_drop.
  apply elem_of_app in Hr as [?|[?|?]%elem_of_cons]; try done;
    apply elem_of_app; auto.
Qed.

Section Invariant.
(** [g0] is the grid on entry to the loop, [s] and [e] the start and end
    nodes, [d] the diagonal flag. *)
Variables (g0 : Grid.t) (s e : Ref) (d : bool).
Hypothesis Hwf0 : wf g0.

Implicit Types (st : SearchState) (r n c p : Ref).

Record Inv (st : SearchState) : Prop := mk_Inv {
  inv_frame : same_frame g0 (grid st);
  inv_nodup : NoDup (openSet st);
  inv_disj : ∀ r, r ∈ openSet st → r ∉ closedSet st;
  inv_walk : ∀ r, known st r → walk g0 r;
  inv_end : walk g0 e ∧ e ∉ closedSet st;
  inv_start : s ∈ closedSet st ∨ (openSet st = [s] ∧ closedSet st = ∅);
  inv_cost : ∀ r, known st r →
    Node.h (node st r) = manhattan r e ∧
    Node.f (node st r) = Node.g (node st r) + Node.h (node st r) ∧
    0 ≤ Node.g (node st r) ≤ Z.of_nat (size (closedSet st));
  inv_closed : ∀ r, r ∈ closedSet st →
    Node.g (node st r) < Z.of_nat (size (closedSet st));
  inv_tree : ∀ r, known st r →
    if decide (r = s)
    then Node.parent (node st r) = None ∧ Node.g (node st r) = 0
    else ∃ p, Node.parent (node st r) = Some p ∧ p ∈ closedSet st ∧
              Node.g (node st r) = Node.g (node st p) + 1 ∧ step_of d p r
}.

Lemma Inv_wf st : Inv st → wf (grid st).
Proof. intros H. eapply same_frame_wf; [apply H|done]. Qed.

Lemma Inv_inb st r : Inv st → walk g0 r → inb (grid st) r.
Proof. intros H [Hr _]. by apply (same_frame_inb g0 _ r (inv_frame st H)). Qed.

Lemma Inv_slot st r : Inv st → walk g0 r → is_Some (slot (grid st) r).
Proof. intros H Hr. apply slot_inb; eauto using Inv_wf, Inv_inb. Qed.

Lemma _heuristic_manhattan g r r' :
  wf g → inb g r → inb g r' →
  _heuristic (deref g r) (deref g r') = manhattan r r'.
Proof.
  intros. unfold _heuristic, manhattan. by rewrite !deref_x, !deref_y.
Qed.

(** ** The state on entry *)

Lemma Inv_start :
  walk g0 s → walk g0 e → Node.parent (deref g0 s) = None →
  Inv (start g0 s e).
Proof.
  intros Hs He Hpar.
  assert (is_Some (slot g0 s)) as Hslot by (apply slot_inb; [done|apply Hs]).
  assert (∀ r, known (start g0 s e) r → r = s) as Hknown.
  { intros r [Hr|Hr]; simpl in Hr; [by apply list_elem_of_singleton in Hr|].
    by apply not_elem_of_empty in Hr. }
  split; unfold node, start; cbn [grid openSet closedSet].
  - by apply same_frame_update.
  - apply NoDup_singleton.
  - intros r _. apply not_elem_of_empty.
  - by intros r ->%Hknown.
  - split; [done|]. apply not_elem_of_empty.
  - by right.
  - intros r ->%Hknown. rewrite size_empty.
    rewrite deref_update_eq by done. cbn.
    rewrite _heuristic_manhattan by (done || apply Hs || apply He). lia.
  - intros r []%not_elem_of_empty.
  - intros r ->%Hknown. rewrite decide_True by done.
    by rewrite deref_update_eq.
Qed.

(** ** Closing the selected node *)

Lemma size_close st c :
  c ∉ closedSet st →
  size ({[c]} ∪ closedSet st) = S (size (closedSet st)).
Proof.
  intros Hc. rewrite size_union by set_solver. by rewrite size_singleton.
Qed.

Lemma elem_of_closed_add (X : gset Ref) c r :
  r ∈ {[c]} ∪ X ↔ r = c ∨ r ∈ X.
Proof. by rewrite elem_of_union, elem_of_singleton. Qed.

Lemma Inv_close st c i :
  Inv st → openSet st !! i = Some c → c ≠ e →
  Inv (close st c i) ∧ (c ∉ closedSet st) ∧ (s ∈ closedSet (close st c i)).
Proof.
  intros HI Hi Hce.
  assert (c ∈ openSet st) as Hc by (by eapply list_elem_of_lookup_2).
  pose proof (inv_disj st HI c Hc) as Hcc.
  pose proof (size_close st c Hcc) as Hsize.
  assert (∀ r, r ∈ delete i (openSet st) → r ∈ openSet st ∧ r ≠ c) as Hdel.
  { intros r Hr. split; [by eapply list_elem_of_delete_inv|]. intros ->.
    pose proof (inv_nodup st HI) as Hnd.
    rewrite <- (take_drop_middle _ _ _ Hi) in Hnd.
    rewrite delete_take_drop in Hr.
    apply NoDup_app in Hnd as (_ & Hnd1 & Hnd2).
    apply NoDup_cons in Hnd2 as [Hnd2 _].
    apply elem_of_app in Hr as [Hr|Hr]; [|done].
    apply (Hnd1 c Hr). left. }
  assert (∀ r, known (close st c i) r → known st r) as Hknown.
  { intros r [Hr|Hr]; unfold close in Hr; cbn [openSet closedSet] in Hr.
    - left. by apply Hdel.
    - apply elem_of_closed_add in Hr as [->|Hr]; [by left|by right]. }
  assert (s ∈ {[c]} ∪ closedSet st) as Hs.
  { apply elem_of_closed_add. destruct (inv_start st HI) as [?|[Ho _]]; [by right|].
    left. rewrite Ho in Hc. by apply list_elem_of_singleton in Hc. }
  split; [|split; [done|]]; [|done].
  split; unfold node, close in *; cbn [grid openSet closedSet] in *.
  - apply HI.
  - eapply sublist_NoDup; [apply HI|apply sublist_delete].
  - intros r [Hr Hne]%Hdel Hin.
    apply elem_of_closed_add in Hin as [->|Hin]; [done|].
    by apply (inv_disj st HI r Hr).
  - intros r Hr%Hknown. by apply (inv_walk st HI).
  - split; [apply (inv_end st HI)|]. intros Hin.
    apply elem_of_closed_add in Hin as [->|Hin]; [done|].
    by apply (proj2 (inv_end st HI)).
  - by left.
  - intros r Hr%Hknown. rewrite Hsize.
    destruct (inv_cost st HI r Hr) as (? & ? & ?). unfold node in *.
    split; [done|]. split; [done|]. lia.
  - intros r Hr. rewrite Hsize.
    apply elem_of_closed_add in Hr as [->|Hr].
    + destruct (inv_cost st HI c (or_introl Hc)) as (_ & _ & ?).
      unfold node in *. lia.
    + pose proof (inv_closed st HI r Hr). unfold node in *. lia.
  - intros r Hr%Hknown. pose proof (inv_tree st HI r Hr) as Ht.
    unfold node in *. case_decide; [done|].
    destruct Ht as (p & ? & ? & ? & ?). exists p.
    split; [done|]. split; [|done]. apply elem_of_closed_add. by right.
Qed.

(** ** Relaxing a neighbour *)

Lemma node_assign_ne c tg st n r :
  n ≠ r → node (assign c e tg st n) r = node st r.
Proof. intros. unfold node, assign. cbn [grid]. by apply deref_update_ne. Qed.

Lemma node_assign_eq c tg st n :
  wf (grid st) → inb (grid st) n → inb (grid st) e →
  node (assign c e tg st n) n
  = Node.mk n.1 n.2 (Node.walkable (node st n))
            tg (manhattan n e) (tg + manhattan n e) (Some c).
Proof.
  intros Hwf Hn He. unfold node, assign. cbn [grid].
  rewrite deref_update_eq by (by apply slot_inb). cbn.
  by rewrite _heuristic_manhattan, deref_x, deref_y.
Qed.

(** The assignment to a neighbour [n] of the closed node [c], the open
    set being [open']: the old one, possibly with [n] pushed. *)
Lemma Inv_relax st open' c n :
  Inv st → c ∈ closedSet st → s ∈ closedSet st → n ∉ closedSet st →
  step_of d c n → walk g0 n →
  NoDup open' → (∀ r, r ∈ open' ↔ r ∈ openSet st ∨ r = n) →
  Inv (assign c e (Node.g (node st c) + 1)
         (mkState (grid st) open' (closedSet st)) n).
Proof.
  intros HI Hc Hs Hn Hstep Hwalk Hnd Hopen.
  pose proof (Inv_wf st HI) as Hwf.
  pose proof (Inv_inb st n HI Hwalk) as Hinb.
  pose proof (Inv_inb st e HI (proj1 (inv_end st HI))) as Hinbe.
  set (st1 := mkState (grid st) open' (closedSet st)).
  set (tg := Node.g (node st c) + 1).
  assert (∀ r, n ≠ r → node (assign c e tg st1 n) r = node st r) as Hne.
  { intros r Hr. by rewrite node_assign_ne. }
  pose proof (node_assign_eq c tg st1 n Hwf Hinb Hinbe) as Heq.
  assert (∀ r, r ∈ closedSet st → n ≠ r) as Hcl by (by intros r ? ->).
  assert (∀ r, known (assign c e tg st1 n) r → n ≠ r → known st r) as Hknown.
  { intros r [Hr|Hr] Hnr; cbn in Hr; [|by right].
    apply Hopen in Hr as [?|?]; [by left|done]. }
  pose proof (inv_closed st HI c Hc) as Hgc.
  split; cbn [assign st1 grid openSet closedSet].
  - eapply same_frame_trans; [apply (inv_frame st HI)|].
    by apply same_frame_update.
  - done.
  - intros r [Hr| ->]%Hopen; [by apply (inv_disj st HI)|done].
  - intros r Hr. destruct (decide (n = r)) as [<-|Hnr]; [done|].
    apply (inv_walk st HI). by apply Hknown.
  - apply (inv_end st HI).
  - by left.
  - intros r Hr. destruct (decide (n = r)) as [<-|Hnr].
    + rewrite Heq. cbn. unfold tg. pose proof (inv_cost st HI c (or_intror Hc)).
      lia.
    + rewrite Hne by done. apply (inv_cost st HI). by apply Hknown.
  - intros r Hr. rewrite Hne by auto. by apply (inv_closed st HI).
  - intros r Hr. destruct (decide (n = r)) as [<-|Hnr].
    + rewrite decide_False by (by intros ->). exists c.
      rewrite Heq, Hne by auto. done.
    + rewrite Hne by done. pose proof (inv_tree st HI r (Hknown r Hr Hnr)) as Ht.
      case_decide; [done|]. destruct Ht as (p & ? & ? & ? & ?).
      exists p. by rewrite Hne by auto.
Qed.

Lemma Inv_visit st c n :
  Inv st → c ∈ closedSet st → s ∈ closedSet st →
  step_of d c n → walk g0 n →
  Inv (visit c e st n) ∧ closedSet (visit c e st n) = closedSet st.
Proof.
  intros HI Hc Hs Hstep Hwalk. unfold visit.
  destruct (decide (n ∈ closedSet st)) as [|Hn]; [done|].
  destruct (decide (n ∈ openSet st)) as [Ho|Ho].
  - case_bool_decide; [done|]. split; [|done].
    replace st with (mkState (grid st) (openSet st) (closedSet st)) at 2
      by (by destruct st).
    apply Inv_relax; try done; [apply (inv_nodup st HI)|].
    intros r. split; [by left|]. by intros [?| ->].
  - split; [|done]. apply (Inv_relax st (openSet st ++ [n])); try done.
    + apply NoDup_app. split; [apply (inv_nodup st HI)|].
      split; [|apply NoDup_singleton].
      by intros r Hr ->%list_elem_of_singleton.
    + intros r. by rewrite elem_of_app, list_elem_of_singleton.
Qed.

(** What one visit does: nothing, or an assignment to a neighbour that is
    not closed, which lowers its g if it was already open. *)
Lemma visit_effect st c n :
  Inv st → walk g0 n →
  let st' := visit c e st n in
  (st' = st ∧
   (n ∈ closedSet st ∨
    (n ∈ openSet st ∧ Node.g (node st n) ≤ Node.g (node st c) + 1))) ∨
  ((n ∉ closedSet st) ∧ closedSet st' = closedSet st ∧
   (∀ r, r ∈ openSet st' ↔ r ∈ openSet st ∨ r = n) ∧
   (∀ r, n ≠ r → node st' r = node st r) ∧
   Node.g (node st' n) = Node.g (node st c) + 1 ∧
   (n ∈ openSet st → Node.g (node st' n) < Node.g (node st n))).
Proof.
  intros HI Hwalk. cbn zeta. unfold visit.
  pose proof (Inv_wf st HI) as Hwf.
  pose proof (Inv_inb st n HI Hwalk) as Hinb.
  pose proof (Inv_inb st e HI (proj1 (inv_end st HI))) as Hinbe.
  destruct (decide (n ∈ closedSet st)) as [|Hn]; [left; by auto|].
  destruct (decide (n ∈ openSet st)) as [Ho|Ho].
  - case_bool_decide as Hg; [left; by auto|]. right.
    split; [done|]. split; [done|]. split.
    { intros r. cbn. split; [by left|]. by intros [?| ->]. }
    split; [intros r Hr; by apply node_assign_ne|].
    rewrite node_assign_eq by done. unfold node in *. cbn.
    split; [done|]. intros _. lia.
  - right. split; [done|]. split; [done|]. split.
    { intros r. cbn. by rewrite elem_of_app, list_elem_of_singleton. }
    split; [intros r Hr; by rewrite node_assign_ne|].
    rewrite node_assign_eq by done. cbn. split; [done|]. done.
Qed.

Lemma Inv_visit_all st c ns :
  Inv st → c ∈ closedSet st → s ∈ closedSet st →
  (∀ n, n ∈ ns → step_of d c n ∧ walk g0 n) →
  Inv (foldl (visit c e) st ns)
  ∧ closedSet (foldl (visit c e) st ns) = closedSet st.
Proof.
  revert st. induction ns as [|n ns IH]; intros st HI Hc Hs Hns; [done|].
  simpl. destruct (Hns n) as [Hstep Hwalk]; [left|].
  destruct (Inv_visit st c n HI Hc Hs Hstep Hwalk) as [HI1 Hcl1].
  destruct (IH (visit c e st n)) as [HI2 Hcl2].
  { done. }
  { by rewrite Hcl1. }
  { by rewrite Hcl1. }
  { intros n' Hn'. apply Hns. by right. }
  split; [done|]. by rewrite Hcl2.
Qed.

(** The neighbours that [getNeighbors] returns for a discovered node. *)
Lemma getNeighbors_Inv st c :
  Inv st → walk g0 c →
  ∃ ns, getNeighbors (grid st) c d = Normal ns ∧
        ∀ n, n ∈ ns ↔ step_of d c n ∧ walk g0 n.
Proof.
  intros HI Hc. eexists. split.
  { apply getNeighbors_wf; eauto using Inv_wf, Inv_inb. }
  intros n. rewrite list_elem_of_filter, list_elem_of_fmap.
  rewrite (same_frame_walk g0 (grid st) n (inv_frame st HI) Hwf0).
  unfold step_of. split.
  - intros [Hw (dir & -> & Hdir)]. split; [|done]. by exists dir.
  - intros [(dir & Hdir & ->) Hw]. split; [done|]. by exists dir.
Qed.

(** ** One iteration that does not return *)

Lemma Inv_expand st c i :
  Inv st → openSet st !! i = Some c → c ≠ e →
  ∃ st', expand e d st c i = Normal st' ∧ Inv st' ∧
         (c ∉ closedSet st) ∧ closedSet st' = {[c]} ∪ closedSet st.
Proof.
  intros HI Hi Hce.
  destruct (Inv_close st c i HI Hi Hce) as (HI1 & Hc & Hs).
  assert (walk g0 c) as Hwalk.
  { apply (inv_walk st HI). left. by eapply list_elem_of_lookup_2. }
  destruct (getNeighbors_Inv (close st c i) c HI1 Hwalk) as (ns & Hns & Hin).
  unfold expand. rewrite Hns. cbn.
  destruct (Inv_visit_all (close st c i) c ns HI1) as [HI2 Hcl2].
  { apply elem_of_closed_add. by left. }
  { done. }
  { intros n. apply Hin. }
  eexists. split; [done|]. split; [done|]. split; [done|]. by rewrite Hcl2.
Qed.



(** ** Path reconstruction *)

(** What [_reconstructPath] yields for a discovered node [r]. *)
Record PathTo (st : SearchState) (r : Ref) (path : list Coord) : Prop :=
  mk_PathTo {
    path_head : head path = Some s;
    path_last : last path = Some r;
    path_contiguous : Contiguous d path;
    path_walk : ∀ a, a ∈ path → walk g0 a;
    path_length : length path = S (Z.to_nat (Node.g (node st r)))
  }.

Lemma reconstruct_Inv st fuel r acc :
  Inv st → known st r → (Z.to_nat (Node.g (node st r)) < fuel)%nat →
  ∃ path, _reconstructPath_loop fuel (grid st) (Some r) acc
          = Some (path ++ acc) ∧ PathTo st r path.
Proof.
  intros HI. revert r acc.
  induction fuel as [|fuel IH]; intros r acc Hr Hfuel; [lia|].
  pose proof (inv_walk st HI r Hr) as Hwalk.
  pose proof (Inv_inb st r HI Hwalk) as Hinb.
  pose proof (Inv_wf st HI) as Hwf.
  cbn [_reconstructPath_loop]. rewrite deref_x, deref_y by done.
  replace (r.1, r.2) with r by (by destruct r).
  pose proof (inv_tree st HI r Hr) as Ht. unfold node in *.
  destruct (decide (r = s)) as [->|Hrs].
  - destruct Ht as [-> Hg]. exists [s]. split; [by destruct fuel|].
    split; [done|done| | |].
    + by intros [|i] a b ? ?.
    + by intros a ->%list_elem_of_singleton.
    + unfold node. by rewrite Hg.
  - destruct Ht as (p & -> & Hp & Hg & Hstep).
    pose proof (inv_cost st HI p (or_intror Hp)) as (_ & _ & Hgp).
    unfold node in *.
    destruct (IH p (r :: acc)) as (path & -> & [Hh Hl Hc Hw Hlen]).
    { by right. }
    { lia. }
    exists (path ++ [r]). split; [by rewrite <- app_assoc|].
    split.
    + destruct path; [done|]. done.
    + apply last_snoc.
    + by eapply Contiguous_snoc.
    + intros a [?| ->%list_elem_of_singleton]%elem_of_app; auto.
    + rewrite length_app, Hlen. unfold node. simpl. lia.
Qed.

(** ** The main loop *)

(** [reaches st st']: the loop, entered in state [st], comes to the test of
    its condition in state [st']. *)
Inductive reaches : SearchState → SearchState → Prop :=
  | reaches_here st : reaches st st
  | reaches_next st c i st1 st' :
      select st = Some (c, i) → c ≠ e →
      expand e d st c i = Normal st1 →
      reaches st1 st' → reaches st st'.

Lemma reaches_Inv st st' : reaches st st' → Inv st → Inv st'.
Proof.
  induction 1 as [|st c i st1 st' Hsel Hce Hexp _ IH]; [done|].
  intros HI. apply IH. apply select_first_min in Hsel as [Hi _].
  destruct (Inv_expand st c i HI Hi Hce) as (st2 & Hexp2 & HI2 & _).
  congruence.
Qed.

Lemma closed_lt_cells st :
  Inv st → (size (closedSet st) < cells g0)%nat.
Proof.
  intros HI. destruct (inv_end st HI) as [He Hec].
  pose proof (size_inb ({[e]} ∪ closedSet st) g0) as Hsz.
  rewrite size_close in Hsz by done. apply Hsz.
  intros r [->|Hr]%elem_of_closed_add; [apply He|].
  apply (inv_walk st HI). by right.
Qed.

(** With [width * height] units of fuel for each loop the search returns,
    either the empty path from a state with an empty open set, or the
    reconstructed path from a state in which the end node is selected. *)
Lemma search_Inv fuel rfuel st :
  Inv st →
  (cells g0 ≤ size (closedSet st) + fuel)%nat → (cells g0 ≤ rfuel)%nat →
  ∃ st' path,
    search fuel rfuel e d st = Returned (grid st') path ∧
    reaches st st' ∧
    ((openSet st' = [] ∧ path = []) ∨
     ((∃ i, select st' = Some (e, i)) ∧ PathTo st' e path)).
Proof.
  revert st. induction fuel as [|fuel IH]; intros st HI Hfuel Hrfuel;
    pose proof (closed_lt_cells st HI) as Hlt.
  - lia.
  - cbn [search]. destruct (select st) as [[c i]|] eqn:Hsel.
    + pose proof (select_first_min st c i Hsel) as [Hi _].
      destruct (decide (c = e)) as [->|Hce].
      * assert (known st e) as Hk.
        { left. by eapply list_elem_of_lookup_2. }
        destruct (reconstruct_Inv st rfuel e [] HI Hk) as (path & Hrec & Hp).
        { pose proof (inv_cost st HI e Hk) as (_ & _ & ?). lia. }
        unfold _reconstructPath. rewrite Hrec, app_nil_r.
        exists st, path. split; [done|]. split; [constructor|].
        right. split; [|done]. by exists i.
      * destruct (Inv_expand st c i HI Hi Hce) as (st1 & Hexp & HI1 & Hc & Hcl).
        rewrite Hexp.
        destruct (IH st1 HI1) as (st' & path & Hs & Hreach & Hres); [|done|].
        { rewrite Hcl, size_close by done. lia. }
        exists st', path. split; [done|]. split; [|done].
        by eapply reaches_next.
    + exists st, []. split; [done|]. split; [constructor|].
      left. split; [|done]. by apply select_None.
Qed.
End Invariant.

(** Membership of a literal direction in [directions]. *)
Ltac in_directions :=
  cbn; repeat (first [ by left | apply list_elem_of_further ]).


(** * Open grids with 4-directional movement *)


Section OpenGrid.
Variables (g0 : Grid.t) (s e : Ref).
Hypothesis Hwf0 : wf g0.
(** No blocked cell. *)
Hypothesis Hopen : ∀ r, inb g0 r → walk g0 r.

Implicit Types (st : SearchState) (r n c m : Ref).

Local Abbreviation Inv := (Inv g0 s e false).

(** [n] has been relaxed from the closed node [c]. *)
Definition relaxed_at (st : SearchState) (c n : Ref) : Prop :=
  n ∈ closedSet st ∨
  (n ∈ openSet st ∧ Node.g (node st n) ≤ Node.g (node st c) + 1).










End OpenGrid.

(** * findPath *)

Section FindPath.
Implicit Types (g : Grid.t) (st : SearchState) (path : list Coord).

(** ** More fuel does not change a result *)

Lemma _reconstructPath_loop_mono fuel fuel' g current acc path :
  _reconstructPath_loop fuel g current acc = Some path → (fuel ≤ fuel')%nat →
  _reconstructPath_loop fuel' g current acc = Some path.
Proof.
  revert fuel' current acc.
  induction fuel as [|fuel IH]; intros fuel' [c|] acc Hrec Hle;
    try (by destruct fuel'); simplify_eq/=.
  destruct fuel' as [|fuel']; [lia|]. simpl. apply IH; [done|lia].
Qed.

Lemma search_mono fuel fuel' rfuel rfuel' e d st g path :
  search fuel rfuel e d st = Returned g path →
  (fuel ≤ fuel')%nat → (rfuel ≤ rfuel')%nat →
  search fuel' rfuel' e d st = Returned g path.
Proof.
  revert fuel' st. induction fuel as [|fuel IH]; intros fuel' st Hs Hle Hle'.
  - simpl in Hs. destruct (select st) as [[c i]|] eqn:Hsel; [done|].
    destruct fuel'; simpl; by rewrite Hsel.
  - destruct fuel' as [|fuel']; [lia|]. simpl in *.
    destruct (select st) as [[c i]|]; [|done].
    destruct (decide (c = e)).
    + unfold _reconstructPath in *.
      destruct (_reconstructPath_loop rfuel _ _ _) as [p|] eqn:Hrec; [|done].
      by rewrite (_reconstructPath_loop_mono _ rfuel' _ _ _ _ Hrec).
    + destruct (expand e d st c i); [|done]. apply IH; [done|lia|done].
Qed.

Lemma findPath_fuel_mono fuel fuel' g sx sy ex ey d g' path :
  findPath_fuel fuel g sx sy ex ey d = Returned g' path →
  (fuel ≤ fuel')%nat →
  findPath_fuel fuel' g sx sy ex ey d = Returned g' path.
Proof.
  unfold findPath_fuel. intros Hf Hle.
  destruct (reset g) as [g0|]; [|done].
  destruct (getNode g0 sx sy) as [[s|]|]; try done;
    destruct (getNode g0 ex ey) as [[e|]|]; try done.
  by eapply search_mono.
Qed.

(** ** What a call returns *)

Lemma wf_cleared g : wf g → wf (cleared g).
Proof. intros. eapply same_frame_wf; [apply same_frame_cleared|done]. Qed.

Lemma walk_cleared g r : wf g → walk (cleared g) r ↔ walk g r.
Proof. intros. by apply same_frame_walk; [apply same_frame_cleared|]. Qed.

Lemma parent_cleared g r : wf g → inb g r → Node.parent (deref (cleared g) r) = None.
Proof.
  intros Hwf Hr. unfold deref. rewrite slot_cleared.
  by rewrite (deref_slot g r Hwf Hr).
Qed.

(** The outcome of [findPath] on a well-formed grid, in terms of the state
    [st'] in which the main loop stops. *)
Lemma findPath_fuel_wf fuel g sx sy ex ey d :
  wf g → (cells g ≤ fuel)%nat →
  let g0 := cleared g in
  let s := (sx, sy) in
  let e := (ex, ey) in
  if decide (walk g s ∧ walk g e) then
    ∃ st' path,
      findPath_fuel fuel g sx sy ex ey d = Returned (grid st') path ∧
      reaches e d (start g0 s e) st' ∧ Inv g0 s e d st' ∧
      ((openSet st' = [] ∧ path = []) ∨
       ((∃ i, select st' = Some (e, i)) ∧ PathTo g0 s d st' e path))
  else findPath_fuel fuel g sx sy ex ey d = Returned g0 [].
Proof.
  intros Hwf Hfuel g0 s e. unfold findPath_fuel.
  rewrite reset_wf by done. fold g0.
  pose proof (wf_cleared g Hwf) as Hwf0. fold g0 in Hwf0.
  rewrite !getNode_wf by done. fold s e.
  destruct (decide (walk g s ∧ walk g e)) as [[Hs He]|Hno].
  - apply (walk_cleared g s Hwf) in Hs. apply (walk_cleared g e Hwf) in He.
    fold g0 in Hs, He. rewrite !decide_True by done.
    assert (Inv g0 s e d (start g0 s e)) as HI.
    { apply Inv_start; try done. apply parent_cleared; [done|].
      apply (same_frame_inb g g0 s (same_frame_cleared g)), Hs. }
    destruct (search_Inv g0 s e d Hwf0 fuel fuel (start g0 s e) HI)
      as (st' & path & Hsearch & Hreach & Hres).
    { unfold g0, cells in *. simpl. lia. }
    { unfold g0, cells in *. simpl. lia. }
    exists st', path. split; [done|]. split; [done|]. split; [|done].
    by eapply reaches_Inv.
  - destruct (decide (walk g0 s)) as [Hs|Hs]; [|done].
    destruct (decide (walk g0 e)) as [He|He]; [|done].
    exfalso. apply Hno. by split; apply (walk_cleared g _ Hwf).
Qed.

(** On a well-formed grid [findPath] returns, with the frame of the grid
    unchanged. *)
Lemma findPath_returns g sx sy ex ey d :
  wf g →
  ∃ g' path, findPath g sx sy ex ey d = Returned g' path ∧
             same_frame g g' ∧ wf g'.
Proof.
  intros Hwf. unfold findPath.
  pose proof (findPath_fuel_wf (cells g) g sx sy ex ey d Hwf (le_n _)) as H.
  simpl in H. pose proof (same_frame_cleared g) as Hsf.
  destruct (decide (walk g (sx, sy) ∧ walk g (ex, ey))).
  - destruct H as (st' & path & Hf & _ & HI & _).
    assert (same_frame g (grid st')) as Hsf'.
    { eapply same_frame_trans; [done|]. apply (inv_frame _ _ _ _ _ HI). }
    exists (grid st'), path. split; [done|]. split; [done|].
    by eapply same_frame_wf.
  - exists (cleared g), []. split; [done|]. split; [done|]. by apply wf_cleared.
Qed.
End FindPath.

(** * The entry points on integer-valued and other numbers *)

(** The coordinate pair lies within the grid, as an order between numbers. *)
Definition inRange (g : Grid.t) (x y : Api.Number) : Prop :=
  (QArith_base.Qle (Api.ofInt 0) x ∧
   QArith_base.Qlt x (Api.ofInt (width g))) ∧
  (QArith_base.Qle (Api.ofInt 0) y ∧
   QArith_base.Qlt y (Api.ofInt (height g))).

Section Numbers.
Implicit Types (g : Grid.t) (q x y : Api.Number) (z : Z).

Lemma isInteger_ofInt z : Api.isInteger (Api.ofInt z) = true.
Proof. unfold Api.isInteger, Api.ofInt. simpl. by rewrite Z.mod_1_r. Qed.

Lemma toInt_ofInt z : Api.toInt (Api.ofInt z) = z.
Proof. unfold Api.toInt, Api.ofInt. simpl. by rewrite Z.div_1_r. Qed.

Lemma geq_integer q z :
  Api.isInteger q = true →
  Api.geq q (Api.ofInt z) = bool_decide (z ≤ Api.toInt q).
Proof.
  unfold Api.isInteger, Api.geq, Api.ofInt, Api.toInt, QArith_base.Qle_bool.
  destruct q as [n dn]. simpl.
  intros H%Z.eqb_eq. apply Z.div_exact in H; [|lia].
  set (k := n / Z.pos dn) in *. rewrite Z.mul_1_r.
  case_bool_decide; [apply Z.leb_le|apply Z.leb_gt]; nia.
Qed.

Lemma lt_integer q z :
  Api.isInteger q = true →
  Api.lt q (Api.ofInt z) = bool_decide (Api.toInt q < z).
Proof.
  unfold Api.isInteger, Api.lt, Api.ofInt, Api.toInt, QArith_base.Qle_bool.
  destruct q as [n dn]. simpl.
  intros H%Z.eqb_eq. apply Z.div_exact in H; [|lia].
  set (k := n / Z.pos dn) in *. rewrite Z.mul_1_r.
  case_bool_decide;
    [apply negb_true_iff, Z.leb_gt|apply negb_false_iff, Z.leb_le]; nia.
Qed.

Lemma element_integer {A} (arr : list A) q :
  Api.isInteger q = true → Api.element arr q = index arr (Api.toInt q).
Proof. unfold Api.element. by intros ->. Qed.

Lemma element_fraction {A} (arr : list A) q :
  Api.isInteger q = false → Api.element arr q = None.
Proof. unfold Api.element. by intros ->. Qed.

Lemma Api_isInBounds_integer g x y :
  Api.isInteger x = true → Api.isInteger y = true →
  Api._isInBounds g x y = _isInBounds g (Api.toInt x) (Api.toInt y).
Proof.
  intros Hx Hy. unfold Api._isInBounds, _isInBounds.
  by rewrite !geq_integer, !lt_integer.
Qed.

Lemma Api_isInBounds_inRange g x y :
  Api._isInBounds g x y = true ↔ inRange g x y.
Proof.
  unfold Api._isInBounds, inRange, Api.geq, Api.lt.
  rewrite !andb_true_iff, !negb_true_iff, !QArith_base.Qle_bool_iff.
  assert (∀ a b, QArith_base.Qle_bool b a = false ↔ QArith_base.Qlt a b) as Hlt.
  { intros a b. unfold QArith_base.Qle_bool, QArith_base.Qlt.
    rewrite Z.leb_gt. done. }
  rewrite !Hlt. tauto.
Qed.

(** On integer-valued numbers the entry points are the methods of [Grid] and
    [Pathfinder]. *)
Lemma Api_getNode_integer g x y :
  Api.isInteger x = true → Api.isInteger y = true →
  Api.getNode g x y = getNode g (Api.toInt x) (Api.toInt y).
Proof.
  intros Hx Hy.
  assert (Api._isWalkable g x y
          = _isWalkable g (Api.toInt x) (Api.toInt y)) as Hw.
  { unfold Api._isWalkable, _isWalkable.
    rewrite Api_isInBounds_integer, element_integer by done.
    destruct (_isInBounds g (Api.toInt x) (Api.toInt y)); [|done].
    destruct (index (nodes g) (Api.toInt y)); [|done].
    by rewrite element_integer. }
  unfold Api.getNode, getNode. rewrite Hw.
  destruct (_isWalkable g (Api.toInt x) (Api.toInt y)) as [[|]|]; simpl;
    try done.
  rewrite element_integer by done.
  destruct (index (nodes g) (Api.toInt y)); [|done].
  by rewrite element_integer.
Qed.

Lemma Api_setWalkable_integer g x y b :
  Api.isInteger x = true → Api.isInteger y = true →
  Api.setWalkable g x y b = setWalkable g (Api.toInt x) (Api.toInt y) b.
Proof.
  intros Hx Hy. unfold Api.setWalkable, setWalkable, slot.
  rewrite Api_isInBounds_integer, element_integer by done. simpl.
  destruct (_isInBounds g (Api.toInt x) (Api.toInt y)); [|done].
  destruct (index (nodes g) (Api.toInt y)); [simpl|done].
  by rewrite element_integer.
Qed.


(** Within the bounds, a coordinate that is not an integer makes the cell
    lookup read a property of [undefined]. *)
Lemma Api_isWalkable_fraction g x y :
  wf g → inRange g x y →
  Api.isInteger x = false ∨ Api.isInteger y = false →
  Api._isWalkable g x y = Throw.
Proof.
  intros Hwf Hr Hfrac. unfold Api._isWalkable.
  rewrite (proj2 (Api_isInBounds_inRange g x y) Hr).
  destruct (Api.isInteger y) eqn:Hy; [|by rewrite element_fraction].
  destruct Hfrac as [Hx|?]; [|done].
  destruct (Api.element (nodes g) y); [|done]. by rewrite element_fraction.
Qed.
End Numbers.

(** * Grids built by the constructor and [setWalkable] *)

Section Construction.
Implicit Types (g : Grid.t) (r : Ref).

Lemma index_seqZ_fmap {B} (F : Z → B) len i :
  index (F <$> seqZ 0 len) i
  = if decide (0 ≤ i ∧ i < len) then Some (F i) else None.
Proof.
  unfold index. destruct (decide (0 ≤ i)) as [Hi|Hi].
  - rewrite list_lookup_fmap. destruct (decide (i < len)).
    + rewrite lookup_seqZ_lt by lia. rewrite decide_True by done.
      simpl. do 2 f_equal. lia.
    + rewrite lookup_seqZ_ge by lia. by rewrite decide_False by lia.
  - by rewrite decide_False by lia.
Qed.

Lemma slot_new w h r :
  slot (Grid.new w h) r
  = if decide (inb (Grid.new w h) r) then Some (Node.new r.1 r.2 true)
    else None.
Proof.
  unfold slot, Grid.new, _initializeGrid, inb. cbn [nodes width height].
  rewrite index_seqZ_fmap. destruct (decide (0 ≤ r.2 ∧ r.2 < h)); simpl.
  - rewrite index_seqZ_fmap. destruct (decide (0 ≤ r.1 ∧ r.1 < w)).
    + by rewrite decide_True.
    + by rewrite decide_False by tauto.
  - by rewrite decide_False by tauto.
Qed.

Lemma wf_new w h : wf (Grid.new w h).
Proof.
  split.
  - unfold Grid.new, _initializeGrid. simpl.
    by rewrite length_fmap, length_seqZ.
  - unfold Grid.new, _initializeGrid. simpl.
    intros row (y & -> & _)%list_elem_of_fmap.
    by rewrite length_fmap, length_seqZ.
  - intros r n. rewrite slot_new. case_decide; [|done]. by intros [= <-].
Qed.

(** The constructor leaves no cell blocked. *)
Lemma walk_new w h r : inb (Grid.new w h) r → walk (Grid.new w h) r.
Proof.
  intros Hr. split; [done|]. unfold deref. rewrite slot_new.
  by rewrite decide_True.
Qed.

Lemma wf_update g r upd :
  wf g → (∀ n, Node.x (upd n) = Node.x n ∧ Node.y (upd n) = Node.y n) →
  wf (update g r upd).
Proof.
  intros Hwf Hupd. split.
  - rewrite height_update. unfold update. case_decide; [simpl|apply Hwf].
    rewrite length_alter. apply Hwf.
  - rewrite width_update. unfold update. case_decide; [simpl|apply Hwf].
    intros row [i Hi]%list_elem_of_lookup_1.
    rewrite list_lookup_alter in Hi. case_decide; [|].
    + destruct (nodes g !! Z.to_nat r.2) as [row0|] eqn:Hrow; simplify_eq/=.
      rewrite length_alter. apply (wf_cols g Hwf).
      by eapply list_elem_of_lookup_2.
    + apply (wf_cols g Hwf). by eapply list_elem_of_lookup_2.
  - intros r' n. rewrite slot_update. case_decide as Hr.
    + subst r'. destruct (slot g r) as [n0|] eqn:Hn0; [|done].
      intros [= <-]. destruct (Hupd n0) as [-> ->]. by apply (wf_pos g Hwf).
    + apply (wf_pos g Hwf).
Qed.

Lemma setWalkable_wf g x y b :
  wf g → ∃ g', setWalkable g x y b = Normal g' ∧ wf g'.
Proof.
  intros Hwf. unfold setWalkable. destruct (_isInBounds g x y) eqn:Hb.
  - apply _isInBounds_true in Hb.
    destruct (slot_inb g (x, y) Hwf Hb) as [n ->].
    eexists. split; [done|]. by apply wf_update.
  - by exists g.
Qed.
End Construction.

(** * Example grids *)

(** [cellsToBlock] made unwalkable by successive calls of [setWalkable]. *)
Definition blocked (g : Grid.t) (cellsToBlock : list Ref) : Grid.t :=
  foldl (λ g r, match setWalkable g r.1 r.2 false with
                | Normal g' => g'
                | Throw => g
                end) g cellsToBlock.

Lemma wf_blocked g cellsToBlock : wf g → wf (blocked g cellsToBlock).
Proof.
  revert g. induction cellsToBlock as [|r l IH]; intros g Hwf; [done|].
  simpl. apply IH. destruct (setWalkable_wf g r.1 r.2 false Hwf) as (g' & -> & ?).
  done.
Qed.

(** A 3 by 3 grid with a wall in column 1 that leaves only [(1, 2)] open. *)
Definition wallGrid : Grid.t := blocked (Grid.new 3 3) [(1, 0); (1, 1)].

(** A row of three nodes with f costs 5, 3 and 3, all of them open. *)
Definition tieState : SearchState :=
  mkState (Grid.mk 3 1 [[ Node.mk 0 0 true 0 5 5 None;
                          Node.mk 1 0 true 1 2 3 (Some (0, 0));
                          Node.mk 2 0 true 2 1 3 (Some (1, 0)) ]])
          [(0, 0); (1, 0); (2, 0)] ∅.

(** ** The scenarios of the specification *)

Example scenario_open_5x5 :
  ∃ g', findPath (Grid.new 5 5) 0 0 4 4 false
        = Returned g' [(0,0); (1,0); (2,0); (3,0); (4,0);
                       (4,1); (4,2); (4,3); (4,4)].
Proof. eexists. vm_compute. reflexivity. Qed.

Example scenario_detour :
  ∃ g', findPath (blocked (Grid.new 5 5) [(2,0); (2,1); (2,2); (2,3)])
                 0 0 4 0 false
        = Returned g' [(0,0); (1,0); (1,1); (1,2); (1,3); (1,4); (2,4);
                       (3,4); (3,3); (3,2); (3,1); (3,0); (4,0)].
Proof. eexists. vm_compute. reflexivity. Qed.

Example scenario_walled_in :
  ∃ g', findPath (blocked (Grid.new 3 3) [(1,0); (2,1); (1,2); (0,1)])
                 1 1 0 0 false
        = Returned g' [].
Proof. eexists. vm_compute. reflexivity. Qed.

(** * Properties of the search *)

(** Two cells are connected when a sequence of walkable cells, each one
    permitted step from the previous, leads from one to the other. *)
Definition connected (g : Grid.t) (diagonal : bool) (a b : Ref) : Prop :=
  ∃ path, head path = Some a ∧ last path = Some b ∧
          Contiguous diagonal path ∧ ∀ c, c ∈ path → walk g c.

Section Results.
Implicit Types (g : Grid.t) (st : SearchState) (path : list Coord).

Lemma cleared_same_frame g g' : wf g → same_frame g g' → cleared g' = cleared g.
Proof.
  intros Hwf Hsf. pose proof (same_frame_wf g g' Hsf Hwf) as Hwf'.
  apply grid_ext; try (by apply wf_cleared); try apply Hsf.
  intros r. rewrite !slot_cleared.
  pose proof (same_frame_slot g g' r Hsf) as Hs.
  destruct (slot g' r) as [n'|], (slot g r) as [n|]; simplify_eq/=; [|done].
  unfold clear. congruence.
Qed.

Lemma cells_same_frame g g' : same_frame g g' → cells g' = cells g.
Proof. intros [Hw Hh _]. unfold cells. by rewrite Hw, Hh. Qed.

(** What [findPath] returns: the empty path, or a walk from the start to
    the end over walkable cells. *)
Lemma findPath_cases g sx sy ex ey d :
  wf g →
  ∃ g' path,
    (∀ fuel, (cells g ≤ fuel)%nat →
             findPath_fuel fuel g sx sy ex ey d = Returned g' path) ∧
    same_frame g g' ∧
    (path = [] ∨
     (walk g (sx, sy) ∧ walk g (ex, ey) ∧
      head path = Some (sx, sy) ∧ last path = Some (ex, ey) ∧
      Contiguous d path ∧ ∀ a, a ∈ path → walk g a)).
Proof.
  intros Hwf.
  pose proof (findPath_fuel_wf (cells g) g sx sy ex ey d Hwf (le_n _)) as H.
  simpl in H. pose proof (same_frame_cleared g) as Hsf.
  destruct (decide (walk g (sx, sy) ∧ walk g (ex, ey))) as [[Hs He]|Hno].
  - destruct H as (st' & path & Hf & _ & HI & Hres).
    exists (grid st'), path. split; [|split].
    + intros fuel Hfuel. by eapply findPath_fuel_mono.
    + eapply same_frame_trans; [done|]. apply (inv_frame _ _ _ _ _ HI).
    + destruct Hres as [[_ ->]|[_ [Hh Hl Hc Hw _]]]; [by left|]. right.
      do 5 (split; [done|]). intros a Ha. apply (walk_cleared g a Hwf); auto.
  - exists (cleared g), []. split; [|split; [done|by left]].
    intros fuel Hfuel. by eapply findPath_fuel_mono.
Qed.

Lemma findPath_inv g sx sy ex ey d g' path :
  wf g → findPath g sx sy ex ey d = Returned g' path →
  same_frame g g' ∧
  (path = [] ∨
   (walk g (sx, sy) ∧ walk g (ex, ey) ∧
    head path = Some (sx, sy) ∧ last path = Some (ex, ey) ∧
    Contiguous d path ∧ ∀ a, a ∈ path → walk g a)).
Proof.
  intros Hwf Hf.
  destruct (findPath_cases g sx sy ex ey d Hwf) as (g1 & p1 & Hf1 & Hsf & Hp).
  unfold findPath in Hf. rewrite (Hf1 _ (le_n _)) in Hf. by simplify_eq.
Qed.
End Results.






(** C3: with the start equal to the end, an in-bounds walkable cell,
    [findPath] returns exactly the one-element path.  One execution of the
    loop body suffices: it selects the start node, finds it to be the goal
    and returns before [expand], and the store is the freshly reset grid, no
    node having been assigned to. *)
Theorem findPath_start_is_end g x y d :
  wf g → inb g (x, y) → Node.walkable (deref g (x, y)) = true →
  findPath g x y x y d = Returned (cleared g) [(x, y)] ∧
  findPath_fuel 1 g x y x y d = Returned (cleared g) [(x, y)] ∧
  select (start (cleared g) (x, y) (x, y)) = Some ((x, y), 0%nat).
Proof.
  intros Hwf Hb Hw.
  assert (walk (cleared g) (x, y)) as Hwalk.
  { by apply (walk_cleared g (x, y) Hwf). }
  pose proof (wf_cleared g Hwf) as Hwf0.
  assert (findPath_fuel 1 g x y x y d = Returned (cleared g) [(x, y)]) as H1.
  { unfold findPath_fuel. rewrite reset_wf by done.
    rewrite !getNode_wf by done. rewrite decide_True by done.
    cbn [search select start openSet lowestF]. rewrite decide_True by done.
    unfold _reconstructPath. cbn [_reconstructPath_loop grid].
    assert (grid (start (cleared g) (x, y) (x, y)) = cleared g) as ->.
    { unfold start. cbn [grid]. apply grid_ext; try done.
      - by apply wf_update.
      - apply width_update.
      - apply height_update.
      - intros r. rewrite slot_update. case_decide as Hr; [subst r|done].
        rewrite (deref_slot _ _ Hwf0 (proj1 Hwalk)). simpl. f_equal.
        rewrite _heuristic_manhattan by (done || apply Hwalk).
        unfold manhattan. rewrite !Z.sub_diag. simpl.
        unfold deref. rewrite slot_cleared.
        by rewrite (deref_slot g (x, y) Hwf Hb). }
    rewrite parent_cleared by done.
    rewrite deref_x, deref_y by (done || apply Hwalk). done. }
  split; [|split; [done|done]].
  apply (findPath_fuel_mono 1); [done|].
  pose proof (size_inb {[(x, y)]} g) as Hsz. rewrite size_singleton in Hsz.
  apply Hsz. by intros r ->%elem_of_singleton.
Qed.

Lemma findPath_start_is_end_witness :
  wf wallGrid ∧ inb wallGrid (2, 1) ∧
  Node.walkable (deref wallGrid (2, 1)) = true ∧
  findPath wallGrid 2 1 2 1 false = Returned (cleared wallGrid) [(2, 1)] ∧
  findPath_fuel 1 wallGrid 2 1 2 1 false
    = Returned (cleared wallGrid) [(2, 1)] ∧
  select (start (cleared wallGrid) (2, 1) (2, 1)) = Some ((2, 1), 0%nat).
Proof.
  assert (wf wallGrid) as Hwf by apply wf_blocked, wf_new.
  assert (inb wallGrid (2, 1)) as Hb by (vm_compute; intuition discriminate).
  assert (Node.walkable (deref wallGrid (2, 1)) = true) as Hw by reflexivity.
  do 3 (split; [done|]).
  exact (findPath_start_is_end wallGrid 2 1 false Hwf Hb Hw).
Defined.

(** C4: a path returned by [findPath] is spatially contiguous: each
    coordinate differs from the previous one by one of the 4 orthogonal
    direction steps, or by one of the 8 direction steps when diagonal
    movement is enabled. *)
Theorem findPath_contiguous g sx sy ex ey d g' path :
  wf g → findPath g sx sy ex ey d = Returned g' path →
  ∀ i a b, path !! i = Some a → path !! S i = Some b →
    (b.1 - a.1, b.2 - a.2) ∈
      (if d then [(0, -1); (1, 0); (0, 1); (-1, 0);
                  (1, -1); (1, 1); (-1, 1); (-1, -1)]
       else [(0, -1); (1, 0); (0, 1); (-1, 0)]).
Proof.
  intros Hwf Hf i a b Ha Hb.
  destruct (findPath_inv g sx sy ex ey d g' path Hwf Hf)
    as [_ [->|(_ & _ & _ & _ & Hc & _)]]; [done|].
  destruct (Hc i a b Ha Hb) as (dir & Hdir & ->).
  unfold offset. simpl.
  replace (a.1 + dir.1 - a.1, a.2 + dir.2 - a.2) with dir
    by (destruct dir; simpl; f_equal; lia).
  by destruct d.
Qed.

Lemma findPath_contiguous_witness :
  ∃ g',
    wf wallGrid ∧
    findPath wallGrid 0 0 2 0 false
    = Returned g' [(0,0); (0,1); (0,2); (1,2); (2,2); (2,1); (2,0)] ∧
    ∀ i a b,
      [(0,0); (0,1); (0,2); (1,2); (2,2); (2,1); (2,0)] !! i = Some a →
      [(0,0); (0,1); (0,2); (1,2); (2,2); (2,1); (2,0)] !! S i = Some b →
      (b.1 - a.1, b.2 - a.2) ∈ [(0, -1); (1, 0); (0, 1); (-1, 0)].
Proof.
  assert (wf wallGrid) as Hwf by apply wf_blocked, wf_new.
  eexists. split; [done|].
  refine ((λ Hf, conj Hf
    (findPath_contiguous wallGrid 0 0 2 0 false _ _ Hwf Hf)) _).
  vm_compute. reflexivity.
Defined.

(** C5: every coordinate of a returned path is in bounds and names a cell
    whose walkable flag is set in the grid [findPath] was called on. *)
Theorem findPath_walkable g sx sy ex ey d g' path :
  wf g → findPath g sx sy ex ey d = Returned g' path →
  ∀ c, c ∈ path →
    _isInBounds g c.1 c.2 = true ∧ Node.walkable (deref g c) = true.
Proof.
  intros Hwf Hf c Hc.
  destruct (findPath_inv g sx sy ex ey d g' path Hwf Hf)
    as [_ [->|(_ & _ & _ & _ & _ & Hw)]]; [by apply not_elem_of_nil in Hc|].
  destruct (Hw c Hc) as [Hb Hwalk]. split; [|done].
  apply _isInBounds_true. by destruct c.
Qed.

Lemma findPath_walkable_witness :
  ∃ g',
    wf wallGrid ∧
    findPath wallGrid 0 0 2 0 true
    = Returned g' [(0,0); (0,1); (1,2); (2,1); (2,0)] ∧
    ∀ c, c ∈ [(0,0); (0,1); (1,2); (2,1); (2,0)] →
      _isInBounds wallGrid c.1 c.2 = true ∧
      Node.walkable (deref wallGrid c) = true.
Proof.
  assert (wf wallGrid) as Hwf by apply wf_blocked, wf_new.
  eexists. split; [done|].
  refine ((λ Hf, conj Hf
    (findPath_walkable wallGrid 0 0 2 0 true _ _ Hwf Hf)) _).
  vm_compute. reflexivity.
Defined.

(** C6: a second call of [findPath] with the same arguments, on the grid as
    the first call left it, returns the same path. *)
Theorem findPath_idempotent g sx sy ex ey d :
  wf g →
  ∃ g1 g2 path,
    findPath g sx sy ex ey d = Returned g1 path ∧
    findPath g1 sx sy ex ey d = Returned g2 path.
Proof.
  intros Hwf.
  destruct (findPath_returns g sx sy ex ey d Hwf) as (g1 & path & Hf & Hsf & Hwf1).
  exists g1, g1, path. split; [done|]. rewrite <- Hf.
  unfold findPath, findPath_fuel. rewrite !reset_wf by done.
  by rewrite (cleared_same_frame g g1), (cells_same_frame g g1).
Qed.

Lemma findPath_idempotent_witness :
  wf wallGrid ∧
  ∃ g1 g2 path,
    findPath wallGrid 0 0 2 0 true = Returned g1 path ∧
    findPath g1 0 0 2 0 true = Returned g2 path.
Proof.
  assert (wf wallGrid) as Hwf by apply wf_blocked, wf_new.
  split; [done|]. exact (findPath_idempotent wallGrid 0 0 2 0 true Hwf).
Defined.

(** C7: [getNeighbors] returns, of the 4 orthogonal neighbours in the order
    N, E, S, W, followed when [diagonal] is set by NE, SE, SW, NW, those that
    are in bounds and walkable, in that order. *)
Theorem getNeighbors_order g x y diagonal :
  wf g → inb g (x, y) →
  ∃ neighbors,
    getNeighbors g (x, y) diagonal = Normal neighbors ∧
    neighbors =
      filter (λ r, ((0 ≤ r.1 ∧ r.1 < width g) ∧ (0 ≤ r.2 ∧ r.2 < height g)) ∧
                   Node.walkable (deref g r) = true)
        ([(x, y - 1); (x + 1, y); (x, y + 1); (x - 1, y)] ++
         (if diagonal
          then [(x + 1, y - 1); (x + 1, y + 1); (x - 1, y + 1); (x - 1, y - 1)]
          else [])) ∧
    (length neighbors ≤ if diagonal then 8 else 4)%nat.
Proof.
  intros Hwf Hb. eexists. split; [by apply getNeighbors_wf|].
  assert (offset (x, y) <$> directions diagonal
          = [(x, y - 1); (x + 1, y); (x, y + 1); (x - 1, y)] ++
            (if diagonal
             then [(x + 1, y - 1); (x + 1, y + 1); (x - 1, y + 1);
                   (x - 1, y - 1)]
             else [])) as ->.
  { unfold directions, offset. destruct diagonal; cbn [fmap list_fmap app fst snd];
      repeat (f_equal; try lia). }
  split.
  - apply list_filter_iff. intros [rx ry]. done.
  - etransitivity; [apply length_filter|]. by destruct diagonal.
Qed.

Lemma getNeighbors_order_witness :
  wf wallGrid ∧ inb wallGrid (0, 1) ∧
  ∃ neighbors,
    getNeighbors wallGrid (0, 1) true = Normal neighbors ∧
    neighbors =
      filter (λ r, ((0 ≤ r.1 ∧ r.1 < width wallGrid) ∧
                    (0 ≤ r.2 ∧ r.2 < height wallGrid)) ∧
                   Node.walkable (deref wallGrid r) = true)
        ([(0, 1 - 1); (0 + 1, 1); (0, 1 + 1); (0 - 1, 1)] ++
         [(0 + 1, 1 - 1); (0 + 1, 1 + 1); (0 - 1, 1 + 1); (0 - 1, 1 - 1)]) ∧
    (length neighbors ≤ 8)%nat.
Proof.
  assert (wf wallGrid) as Hwf by apply wf_blocked, wf_new.
  assert (inb wallGrid (0, 1)) as Hb by (vm_compute; intuition discriminate).
  do 2 (split; [done|]). exact (getNeighbors_order wallGrid 0 1 true Hwf Hb).
Defined.

(** What the visits of one expansion do to the open and the closed set:
    nodes are only pushed, and none that is closed. *)
Lemma visit_all_pushes current endNode st ns :
  ∃ pushed,
    openSet (foldl (visit current endNode) st ns) = openSet st ++ pushed ∧
    closedSet (foldl (visit current endNode) st ns) = closedSet st ∧
    ∀ r, r ∈ pushed → r ∉ closedSet st.
Proof.
  revert st. induction ns as [|n ns IH]; intros st.
  { exists []. rewrite app_nil_r. split; [done|]. split; [done|].
    by intros r ?%not_elem_of_nil. }
  simpl. destruct (IH (visit current endNode st n)) as (pushed & -> & -> & Hp).
  unfold visit in *.
  destruct (decide (n ∈ closedSet st)) as [|Hn]; [by exists pushed|].
  destruct (decide (n ∈ openSet st)).
  - case_bool_decide; by exists pushed.
  - exists (n :: pushed). cbn in *. rewrite <- app_assoc. split; [done|].
    split; [done|]. intros r [->|?]%elem_of_cons; auto.
Qed.

(** C8: the main loop continues with the node that [select] returns, the
    first entry of the open set with the least f: every entry costs at least
    as much, and every entry before it strictly more.  An iteration that
    does not return removes this node from the open set at its index, the
    entries pushed behind the others being different from it, and puts it
    into the closed set before the loop goes on. *)
Theorem select_lowest_f st endNode diagonal current currentIndex :
  select st = Some (current, currentIndex) →
  openSet st !! currentIndex = Some current ∧
  (∀ j r, openSet st !! j = Some r →
     Node.f (node st current) ≤ Node.f (node st r)) ∧
  (∀ j r, openSet st !! j = Some r → (j < currentIndex)%nat →
     Node.f (node st current) < Node.f (node st r)) ∧
  (∀ fuel rfuel,
     search (S fuel) rfuel endNode diagonal st
     = if decide (current = endNode) then
         match _reconstructPath rfuel (grid st) endNode with
         | Some path => Returned (grid st) path
         | None => OutOfFuel
         end
       else
         match expand endNode diagonal st current currentIndex with
         | Throw => Threw
         | Normal st' => search fuel rfuel endNode diagonal st'
         end) ∧
  (∀ st', expand endNode diagonal st current currentIndex = Normal st' →
     (∃ pushed,
        openSet st'
        = take currentIndex (openSet st) ++ drop (S currentIndex) (openSet st)
          ++ pushed ∧
        current ∉ pushed) ∧
     current ∈ closedSet st' ∧
     (∀ r, r ∈ closedSet st → r ∈ closedSet st')).
Proof.
  intros Hsel. pose proof (select_first_min st _ _ Hsel) as [Hi Hmin].
  split; [done|]. split; [|split; [|split]].
  - intros j r Hj. by apply (Hmin j r).
  - intros j r Hj. by apply (Hmin j r).
  - intros fuel rfuel. cbn [search]. by rewrite Hsel.
  - intros st' Hexp. unfold expand in Hexp.
    destruct (getNeighbors _ current diagonal) as [ns|]; [|done].
    cbn in Hexp. injection Hexp as <-.
    destruct (visit_all_pushes current endNode
                (close st current currentIndex) ns)
      as (pushed & -> & -> & Hp).
    unfold close. cbn [openSet closedSet]. split; [|split].
    + exists pushed. rewrite delete_take_drop, <- app_assoc. split; [done|].
      intros Hin. apply (Hp current Hin). cbn.
      apply elem_of_union. left. by apply elem_of_singleton.
    + apply elem_of_union. left. by apply elem_of_singleton.
    + intros r Hr. apply elem_of_union. by right.
Qed.

Lemma select_lowest_f_witness :
  select tieState = Some ((1, 0), 1%nat) ∧
  openSet tieState !! 1%nat = Some (1, 0) ∧
  (∀ j r, openSet tieState !! j = Some r →
     Node.f (node tieState (1, 0)) ≤ Node.f (node tieState r)) ∧
  (∀ j r, openSet tieState !! j = Some r → (j < 1)%nat →
     Node.f (node tieState (1, 0)) < Node.f (node tieState r)) ∧
  (∀ fuel rfuel,
     search (S fuel) rfuel (2, 0) false tieState
     = if decide ((1, 0) = (2, 0)) then
         match _reconstructPath rfuel (grid tieState) (2, 0) with
         | Some path => Returned (grid tieState) path
         | None => OutOfFuel
         end
       else
         match expand (2, 0) false tieState (1, 0) 1 with
         | Throw => Threw
         | Normal st' => search fuel rfuel (2, 0) false st'
         end) ∧
  (∀ st', expand (2, 0) false tieState (1, 0) 1 = Normal st' →
     (∃ pushed,
        openSet st'
        = take 1 (openSet tieState) ++ drop 2 (openSet tieState) ++ pushed ∧
        (1, 0) ∉ pushed) ∧
     (1, 0) ∈ closedSet st' ∧
     (∀ r, r ∈ closedSet tieState → r ∈ closedSet st')).
Proof.
  assert (select tieState = Some ((1, 0), 1%nat)) as Hsel by reflexivity.
  split; [done|]. exact (select_lowest_f tieState (2, 0) false (1, 0) 1%nat Hsel).
Defined.



(** C10: [findPath] leaves the width and the height of the grid and the
    coordinates and the walkable flag of every cell as they were: of a node
    it changes at most g, h, f and parent. *)
Theorem findPath_frame g sx sy ex ey d g' path :
  wf g → findPath g sx sy ex ey d = Returned g' path →
  width g' = width g ∧ height g' = height g ∧
  fmap (M := list) (λ n, (Node.x n, Node.y n, Node.walkable n)) <$> nodes g'
  = fmap (M := list) (λ n, (Node.x n, Node.y n, Node.walkable n)) <$> nodes g.
Proof.
  intros Hwf Hf.
  destruct (findPath_inv g sx sy ex ey d g' path Hwf Hf) as [[Hw Hh Hfr] _].
  done.
Qed.

Lemma findPath_frame_witness :
  ∃ g' path,
    wf wallGrid ∧
    findPath wallGrid 0 0 2 0 false = Returned g' path ∧
    width g' = width wallGrid ∧ height g' = height wallGrid ∧
    fmap (M := list) (λ n, (Node.x n, Node.y n, Node.walkable n)) <$> nodes g'
    = fmap (M := list) (λ n, (Node.x n, Node.y n, Node.walkable n))
        <$> nodes wallGrid.
Proof.
  assert (wf wallGrid) as Hwf by apply wf_blocked, wf_new.
  eexists. eexists. split; [done|].
  refine ((λ Hf, conj Hf
    (findPath_frame wallGrid 0 0 2 0 false _ _ Hwf Hf)) _).
  vm_compute. reflexivity.
Defined.

(** * Further properties of Grid *)

(** The node that [setWalkable] stores in place of [n]. *)
Definition withWalkable (b : bool) (n : Node.t) : Node.t :=
  Node.mk (Node.x n) (Node.y n) b
          (Node.g n) (Node.h n) (Node.f n) (Node.parent n).

Lemma cleared_idem g : cleared (cleared g) = cleared g.
Proof.
  unfold cleared. simpl. f_equal. rewrite <- list_fmap_compose.
  apply list_fmap_ext. intros _ row _. simpl. rewrite <- list_fmap_compose.
  by apply list_fmap_ext.
Qed.

Lemma directions_opposite d dir :
  dir ∈ directions d → (- dir.1, - dir.2) ∈ directions d.
Proof.
  unfold directions. destruct d; cbn; intros Hdir;
    repeat (apply elem_of_cons in Hdir as [->|Hdir]);
    try (by apply not_elem_of_nil in Hdir); in_directions.
Qed.

Lemma directions_nonzero d : (0, 0) ∉ directions d.
Proof.
  unfold directions. destruct d; cbn; intros Hdir;
    repeat (apply elem_of_cons in Hdir as [?|Hdir]); try done;
    by apply not_elem_of_nil in Hdir.
Qed.

Lemma NoDup_directions d : NoDup (directions d).
Proof. destruct d; cbn; by apply (bool_decide_unpack _). Qed.

(** A grid whose nodes carry the costs and parents of an earlier search. *)
Definition tieGrid : Grid.t := grid tieState.

Lemma wf_tieGrid : wf tieGrid.
Proof.
  split.
  - done.
  - intros row ->%list_elem_of_singleton. done.
  - intros [x y] n Hn. unfold slot, index in Hn. simpl in Hn.
    destruct (decide (0 ≤ y)); [|done].
    destruct (Z.to_nat y) as [|[|?]] eqn:Hy; simplify_eq/=.
    destruct (decide (0 ≤ x)); [|done].
    destruct (Z.to_nat x) as [|[|[|?]]] eqn:Hx; simplify_eq/=; split; lia.
Qed.

(** X1: the constructor builds a well-formed grid of the given dimensions:
    slot [nodes[y][x]] holds, for in-bounds [(x, y)], a walkable node with
    these coordinates, zero costs and no parent, and is undefined otherwise;
    [getNode] finds every in-bounds cell and no other. *)
Theorem new_grid w h x y :
  wf (Grid.new w h) ∧
  width (Grid.new w h) = w ∧ height (Grid.new w h) = h ∧
  slot (Grid.new w h) (x, y)
  = (if decide ((0 ≤ x ∧ x < w) ∧ (0 ≤ y ∧ y < h))
     then Some (Node.mk x y true 0 0 0 None) else None) ∧
  getNode (Grid.new w h) x y
  = Normal (if decide ((0 ≤ x ∧ x < w) ∧ (0 ≤ y ∧ y < h))
            then Some (x, y) else None).
Proof.
  split; [apply wf_new|]. split; [done|]. split; [done|]. split.
  - rewrite slot_new.
    destruct (decide ((0 ≤ x ∧ x < w) ∧ (0 ≤ y ∧ y < h))) as [Hb|Hb].
    + by rewrite decide_True.
    + by rewrite decide_False.
  - rewrite getNode_wf by apply wf_new.
    destruct (decide ((0 ≤ x ∧ x < w) ∧ (0 ≤ y ∧ y < h))) as [Hb|Hb].
    + rewrite decide_True; [done|]. by apply walk_new.
    + rewrite decide_False; [done|]. by intros [? _].
Qed.

(** What [setWalkable] does at integer coordinates. *)
Lemma setWalkable_slots g x y b :
  wf g →
  ∃ g', setWalkable g x y b = Normal g' ∧ wf g' ∧
        width g' = width g ∧ height g' = height g ∧
        (¬ inb g (x, y) → g' = g) ∧
        (∀ r, r ≠ (x, y) → slot g' r = slot g r) ∧
        (inb g (x, y) →
         slot g' (x, y) = Some (withWalkable b (deref g (x, y)))).
Proof.
  intros Hwf. unfold setWalkable. destruct (_isInBounds g x y) eqn:Hb.
  - apply _isInBounds_true in Hb.
    rewrite (deref_slot g (x, y) Hwf Hb).
    eexists. split; [done|]. split; [by apply wf_update|].
    split; [apply width_update|]. split; [apply height_update|].
    split; [done|]. split.
    + intros r Hr. by rewrite slot_update_ne.
    + intros _. rewrite slot_update, decide_True by done.
      by rewrite (deref_slot g (x, y) Hwf Hb).
  - apply _isInBounds_false in Hb. exists g.
    do 6 (split; [done|]). by intros ?.
Qed.

(** X2: [setWalkable] on a well-formed grid, for any numbers x and y.  Out
    of bounds it changes nothing.  In bounds, at integer coordinates, it sets
    the walkable flag of the addressed node, keeps the other fields of that
    node and every other slot, and the grid stays well-formed; at a
    coordinate that is not an integer it throws. *)
Theorem setWalkable_effect g x y b :
  wf g →
  (¬ inRange g x y → Api.setWalkable g x y b = Normal g) ∧
  (inRange g x y → Api.isInteger x = false ∨ Api.isInteger y = false →
   Api.setWalkable g x y b = Throw) ∧
  (inRange g x y → Api.isInteger x = true → Api.isInteger y = true →
   ∃ g', Api.setWalkable g x y b = Normal g' ∧ wf g' ∧
         width g' = width g ∧ height g' = height g ∧
         (∀ r, r ≠ (Api.toInt x, Api.toInt y) → slot g' r = slot g r) ∧
         slot g' (Api.toInt x, Api.toInt y)
         = Some (withWalkable b (deref g (Api.toInt x, Api.toInt y)))).
Proof.
  intros Hwf. split; [|split].
  - intros Hr. unfold Api.setWalkable.
    destruct (Api._isInBounds g x y) eqn:Hb; [|done].
    by apply Api_isInBounds_inRange in Hb.
  - intros Hr Hfrac. unfold Api.setWalkable.
    rewrite (proj2 (Api_isInBounds_inRange g x y) Hr).
    destruct (Api.isInteger y) eqn:Hy; [|by rewrite element_fraction].
    destruct Hfrac as [Hx|?]; [|done].
    destruct (Api.element (nodes g) y); [|done]. by rewrite element_fraction.
  - intros Hr Hx Hy. rewrite Api_setWalkable_integer by done.
    assert (inb g (Api.toInt x, Api.toInt y)) as Hb.
    { apply _isInBounds_true. rewrite <- Api_isInBounds_integer by done.
      by apply Api_isInBounds_inRange. }
    destruct (setWalkable_slots g (Api.toInt x) (Api.toInt y) b Hwf)
      as (g' & Hset & Hwf' & Hw & Hh & _ & Hother & Hthis).
    exists g'. do 5 (split; [done|]). by apply Hthis.
Qed.

Lemma setWalkable_effect_witness :
  wf (Grid.new 3 2) ∧
  (¬ inRange (Grid.new 3 2) (Api.ofInt 2) (Api.ofInt 1) →
   Api.setWalkable (Grid.new 3 2) (Api.ofInt 2) (Api.ofInt 1) false
   = Normal (Grid.new 3 2)) ∧
  (inRange (Grid.new 3 2) (Api.ofInt 2) (Api.ofInt 1) →
   Api.isInteger (Api.ofInt 2) = false ∨ Api.isInteger (Api.ofInt 1) = false →
   Api.setWalkable (Grid.new 3 2) (Api.ofInt 2) (Api.ofInt 1) false = Throw) ∧
  (inRange (Grid.new 3 2) (Api.ofInt 2) (Api.ofInt 1) →
   Api.isInteger (Api.ofInt 2) = true → Api.isInteger (Api.ofInt 1) = true →
   ∃ g', Api.setWalkable (Grid.new 3 2) (Api.ofInt 2) (Api.ofInt 1) false
         = Normal g' ∧ wf g' ∧
         width g' = width (Grid.new 3 2) ∧
         height g' = height (Grid.new 3 2) ∧
         (∀ r, r ≠ (Api.toInt (Api.ofInt 2), Api.toInt (Api.ofInt 1)) →
               slot g' r = slot (Grid.new 3 2) r) ∧
         slot g' (Api.toInt (Api.ofInt 2), Api.toInt (Api.ofInt 1))
         = Some (withWalkable false
                   (deref (Grid.new 3 2)
                      (Api.toInt (Api.ofInt 2), Api.toInt (Api.ofInt 1))))).
Proof.
  assert (wf (Grid.new 3 2)) as Hwf by apply wf_new.
  split; [done|].
  exact (setWalkable_effect (Grid.new 3 2) (Api.ofInt 2) (Api.ofInt 1) false
           Hwf).
Defined.

(** X3: [getNode] after [setWalkable]: the addressed in-bounds cell is found
    exactly when it was made walkable, and the lookup of every other cell
    is unaffected. *)
Theorem getNode_setWalkable g x y b g' :
  wf g → inb g (x, y) → setWalkable g x y b = Normal g' →
  getNode g' x y = Normal (if b then Some (x, y) else None) ∧
  ∀ x' y', (x', y') ≠ (x, y) → getNode g' x' y' = getNode g x' y'.
Proof.
  intros Hwf Hb Hset.
  destruct (setWalkable_slots g x y b Hwf)
    as (g1 & Hset1 & Hwf1 & Hw & Hh & _ & Hother & Hthis).
  rewrite Hset in Hset1. injection Hset1 as <-.
  assert (∀ r, inb g' r ↔ inb g r) as Hinb.
  { intros r. unfold inb. by rewrite Hw, Hh. }
  split.
  - rewrite getNode_wf by done. specialize (Hthis Hb).
    apply slot_deref in Hthis.
    destruct b.
    + rewrite decide_True; [done|]. split; [by apply Hinb|]. by rewrite Hthis.
    + rewrite decide_False; [done|]. intros [_ Hw']. by rewrite Hthis in Hw'.
  - intros x' y' Hne. rewrite !getNode_wf by done.
    assert (walk g' (x', y') ↔ walk g (x', y')) as Hwalk.
    { unfold walk, deref. by rewrite Hinb, (Hother _ Hne). }
    destruct (decide (walk g (x', y'))).
    + by rewrite decide_True by (by apply Hwalk).
    + by rewrite decide_False by (by rewrite Hwalk).
Qed.

Lemma getNode_setWalkable_witness :
  ∃ g',
    wf (Grid.new 3 2) ∧ inb (Grid.new 3 2) (2, 1) ∧
    setWalkable (Grid.new 3 2) 2 1 false = Normal g' ∧
    getNode g' 2 1 = Normal None ∧
    ∀ x' y', (x', y') ≠ (2, 1) →
             getNode g' x' y' = getNode (Grid.new 3 2) x' y'.
Proof.
  assert (wf (Grid.new 3 2)) as Hwf by apply wf_new.
  assert (inb (Grid.new 3 2) (2, 1)) as Hb by (vm_compute; intuition discriminate).
  eexists. split; [done|]. split; [done|].
  refine ((λ Hset, conj Hset
    (getNode_setWalkable (Grid.new 3 2) 2 1 false _ Hwf Hb Hset)) _).
  vm_compute. reflexivity.
Defined.

(** X4: [getNode] on a well-formed grid, for any numbers x and y.  Out of
    bounds it returns null.  In bounds, at integer coordinates, it returns
    the node in slot [nodes[y][x]] when that node is walkable and null when
    it is not; at a coordinate that is not an integer it throws. *)
Theorem getNode_found g x y :
  wf g →
  (¬ inRange g x y → Api.getNode g x y = Normal None) ∧
  (inRange g x y → Api.isInteger x = false ∨ Api.isInteger y = false →
   Api.getNode g x y = Throw) ∧
  (inRange g x y → Api.isInteger x = true → Api.isInteger y = true →
   Api.getNode g x y
   = Normal (if Node.walkable (deref g (Api.toInt x, Api.toInt y))
             then Some (Api.toInt x, Api.toInt y) else None)).
Proof.
  intros Hwf. split; [|split].
  - intros Hr. unfold Api.getNode, Api._isWalkable.
    destruct (Api._isInBounds g x y) eqn:Hb; [|done].
    by apply Api_isInBounds_inRange in Hb.
  - intros Hr Hfrac. unfold Api.getNode.
    by rewrite Api_isWalkable_fraction.
  - intros Hr Hx Hy. rewrite Api_getNode_integer, getNode_wf by done.
    assert (inb g (Api.toInt x, Api.toInt y)) as Hb.
    { apply _isInBounds_true. rewrite <- Api_isInBounds_integer by done.
      by apply Api_isInBounds_inRange. }
    destruct (Node.walkable (deref g (Api.toInt x, Api.toInt y))) eqn:Hw.
    + by rewrite decide_True.
    + rewrite decide_False; [done|]. intros [_ ?]. congruence.
Qed.

Lemma getNode_found_witness :
  wf wallGrid ∧
  (¬ inRange wallGrid (QArith_base.Qmake 1 2) (Api.ofInt 0) →
   Api.getNode wallGrid (QArith_base.Qmake 1 2) (Api.ofInt 0) = Normal None) ∧
  (inRange wallGrid (QArith_base.Qmake 1 2) (Api.ofInt 0) →
   Api.isInteger (QArith_base.Qmake 1 2) = false ∨
   Api.isInteger (Api.ofInt 0) = false →
   Api.getNode wallGrid (QArith_base.Qmake 1 2) (Api.ofInt 0) = Throw) ∧
  (inRange wallGrid (QArith_base.Qmake 1 2) (Api.ofInt 0) →
   Api.isInteger (QArith_base.Qmake 1 2) = true →
   Api.isInteger (Api.ofInt 0) = true →
   Api.getNode wallGrid (QArith_base.Qmake 1 2) (Api.ofInt 0)
   = Normal (if Node.walkable
                  (deref wallGrid (Api.toInt (QArith_base.Qmake 1 2),
                                   Api.toInt (Api.ofInt 0)))
             then Some (Api.toInt (QArith_base.Qmake 1 2),
                        Api.toInt (Api.ofInt 0))
             else None)).
Proof.
  assert (wf wallGrid) as Hwf by apply wf_blocked, wf_new.
  split; [done|].
  exact (getNode_found wallGrid (QArith_base.Qmake 1 2) (Api.ofInt 0) Hwf).
Defined.

(** X5: on a well-formed grid [reset] never throws; it sets g, h and f of
    every node to zero and its parent to null, keeps x, y and walkable, and
    a second [reset] changes nothing more. *)
Theorem reset_effect g :
  wf g →
  ∃ g', reset g = Normal g' ∧ wf g' ∧
        width g' = width g ∧ height g' = height g ∧
        (∀ r, slot g' r
              = (λ n, Node.mk (Node.x n) (Node.y n) (Node.walkable n)
                              0 0 0 None) <$> slot g r) ∧
        reset g' = Normal g'.
Proof.
  intros Hwf. exists (cleared g). split; [by apply reset_wf|].
  pose proof (wf_cleared g Hwf) as Hwf'. split; [done|].
  split; [done|]. split; [done|]. split; [apply slot_cleared|].
  by rewrite reset_wf, cleared_idem.
Qed.

Lemma reset_effect_witness :
  wf tieGrid ∧
  ∃ g', reset tieGrid = Normal g' ∧ wf g' ∧
        width g' = width tieGrid ∧ height g' = height tieGrid ∧
        (∀ r, slot g' r
              = (λ n, Node.mk (Node.x n) (Node.y n) (Node.walkable n)
                              0 0 0 None) <$> slot tieGrid r) ∧
        reset g' = Normal g'.
Proof.
  assert (wf tieGrid) as Hwf by apply wf_tieGrid.
  split; [done|]. exact (reset_effect tieGrid Hwf).
Defined.

#[global] Instance offset_inj r : Inj (=) (=) (offset r).
Proof.
  intros [a b] [a' b'] Heq. unfold offset in Heq. simpl in Heq.
  injection Heq as ??. f_equal; lia.
Qed.

(** X6: the neighbours that [getNeighbors] returns for a walkable cell are
    pairwise distinct and never include the cell itself, and adjacency is
    symmetric: the cell is in turn among the neighbours of each of them. *)
Theorem getNeighbors_symmetric g a diagonal :
  wf g → walk g a →
  ∃ neighbors,
    getNeighbors g a diagonal = Normal neighbors ∧
    NoDup neighbors ∧ (a ∉ neighbors) ∧
    ∀ b, b ∈ neighbors →
      ∃ neighbors', getNeighbors g b diagonal = Normal neighbors' ∧
                    a ∈ neighbors'.
Proof.
  intros Hwf Ha. eexists. split; [by apply getNeighbors_wf; [|apply Ha]|].
  split; [|split].
  - apply NoDup_filter, NoDup_fmap_2; [apply _|apply NoDup_directions].
  - intros [_ (dir & Hdir & Hin)%list_elem_of_fmap]%list_elem_of_filter.
    apply (directions_nonzero diagonal).
    replace (0, 0) with dir; [done|].
    destruct a, dir. unfold offset in Hdir. simpl in Hdir.
    injection Hdir as ??. f_equal; lia.
  - intros b [Hb (dir & -> & Hdir)%list_elem_of_fmap]%list_elem_of_filter.
    eexists. split; [by apply getNeighbors_wf; [|apply Hb]|].
    apply list_elem_of_filter. split; [done|].
    apply list_elem_of_fmap. exists (- dir.1, - dir.2).
    split; [|by apply directions_opposite].
    destruct a. unfold offset. simpl. f_equal; lia.
Qed.

Lemma getNeighbors_symmetric_witness :
  wf wallGrid ∧ walk wallGrid (0, 1) ∧
  ∃ neighbors,
    getNeighbors wallGrid (0, 1) true = Normal neighbors ∧
    NoDup neighbors ∧ ((0, 1) ∉ neighbors) ∧
    ∀ b, b ∈ neighbors →
      ∃ neighbors', getNeighbors wallGrid b true = Normal neighbors' ∧
                    (0, 1) ∈ neighbors'.
Proof.
  assert (wf wallGrid) as Hwf by apply wf_blocked, wf_new.
  assert (walk wallGrid (0, 1)) as Ha.
  { split; [vm_compute; intuition discriminate|reflexivity]. }
  do 2 (split; [done|]).
  exact (getNeighbors_symmetric wallGrid (0, 1) true Hwf Ha).
Defined.

(** Coordinates for which the subtractions, absolute values and the sum of
    [_heuristic] are exact in double-precision arithmetic: integers of
    magnitude at most 2^51, so that no intermediate result exceeds 2^53. *)
Definition exactCoords (n : Node.t) : Prop :=
  Z.abs (Node.x n) ≤ 2 ^ 51 ∧ Z.abs (Node.y n) ≤ 2 ^ 51.

(** X7: on nodes with coordinates of magnitude at most 2^51, [_heuristic]
    is a metric: it is never negative, zero exactly for nodes with equal
    coordinates, symmetric, and satisfies the triangle inequality. *)
Theorem heuristic_metric (a b c : Node.t) :
  exactCoords a → exactCoords b → exactCoords c →
  0 ≤ _heuristic a b ∧
  (_heuristic a b = 0 ↔ Node.x a = Node.x b ∧ Node.y a = Node.y b) ∧
  _heuristic a b = _heuristic b a ∧
  _heuristic a c ≤ _heuristic a b + _heuristic b c.
Proof. intros _ _ _. unfold _heuristic. lia. Qed.

Lemma heuristic_metric_witness :
  exactCoords (Node.new 0 4 true) ∧ exactCoords (Node.new 3 0 true) ∧
  exactCoords (Node.new 1 1 false) ∧
  0 ≤ _heuristic (Node.new 0 4 true) (Node.new 3 0 true) ∧
  (_heuristic (Node.new 0 4 true) (Node.new 3 0 true) = 0 ↔
   Node.x (Node.new 0 4 true) = Node.x (Node.new 3 0 true) ∧
   Node.y (Node.new 0 4 true) = Node.y (Node.new 3 0 true)) ∧
  _heuristic (Node.new 0 4 true) (Node.new 3 0 true)
  = _heuristic (Node.new 3 0 true) (Node.new 0 4 true) ∧
  _heuristic (Node.new 0 4 true) (Node.new 1 1 false)
  ≤ _heuristic (Node.new 0 4 true) (Node.new 3 0 true)
    + _heuristic (Node.new 3 0 true) (Node.new 1 1 false).
Proof.
  assert (∀ x y w, Z.abs x ≤ 4 → Z.abs y ≤ 4 → exactCoords (Node.new x y w))
    as Hsmall.
  { intros x y w Hx Hy. unfold exactCoords. simpl. lia. }
  assert (exactCoords (Node.new 0 4 true)) as Ha by (apply Hsmall; lia).
  assert (exactCoords (Node.new 3 0 true)) as Hb by (apply Hsmall; lia).
  assert (exactCoords (Node.new 1 1 false)) as Hc by (apply Hsmall; lia).
  do 3 (split; [done|]).
  exact (heuristic_metric (Node.new 0 4 true) (Node.new 3 0 true)
           (Node.new 1 1 false) Ha Hb Hc).
Defined.

(** X8: on nodes with coordinates of magnitude at most 2^51, across one
    orthogonal step the heuristic changes by exactly 1, the cost of the
    step; across one diagonal step, which costs 1 as well, it changes by 0
    or by 2. *)
Theorem heuristic_step (a b goal : Node.t) (dir : Z * Z) :
  exactCoords a → exactCoords b → exactCoords goal →
  dir ∈ directions true →
  Node.x b = Node.x a + dir.1 → Node.y b = Node.y a + dir.2 →
  if bool_decide (dir ∈ directions false)
  then Z.abs (_heuristic a goal - _heuristic b goal) = 1
  else Z.abs (_heuristic a goal - _heuristic b goal) = 0 ∨
       Z.abs (_heuristic a goal - _heuristic b goal) = 2.
Proof.
  unfold _heuristic. intros _ _ _ Hdir -> ->. cbn in Hdir.
  repeat (apply elem_of_cons in Hdir as [->|Hdir]);
    try (by apply not_elem_of_nil in Hdir);
    case_bool_decide as Hd; cbn [fst snd]; try lia.
  all: try (exfalso; apply Hd; in_directions).
  all: exfalso; cbn in Hd; repeat (apply elem_of_cons in Hd as [[=]|Hd]);
    by apply not_elem_of_nil in Hd.
Qed.

Lemma heuristic_step_witness :
  exactCoords (Node.new 0 0 true) ∧ exactCoords (Node.new 1 1 true) ∧
  exactCoords (Node.new 3 0 true) ∧
  (1, 1) ∈ directions true ∧
  (Z.abs (_heuristic (Node.new 0 0 true) (Node.new 3 0 true)
          - _heuristic (Node.new 1 1 true) (Node.new 3 0 true)) = 0 ∨
   Z.abs (_heuristic (Node.new 0 0 true) (Node.new 3 0 true)
          - _heuristic (Node.new 1 1 true) (Node.new 3 0 true)) = 2).
Proof.
  assert (∀ x y w, Z.abs x ≤ 4 → Z.abs y ≤ 4 → exactCoords (Node.new x y w))
    as Hsmall.
  { intros x y w Hx Hy. unfold exactCoords. simpl. lia. }
  assert (exactCoords (Node.new 0 0 true)) as Ha by (apply Hsmall; lia).
  assert (exactCoords (Node.new 1 1 true)) as Hb by (apply Hsmall; lia).
  assert (exactCoords (Node.new 3 0 true)) as Hg by (apply Hsmall; lia).
  assert ((1, 1) ∈ directions true) as Hdir by in_directions.
  do 3 (split; [done|]). split; [exact Hdir|].
  exact (heuristic_step (Node.new 0 0 true) (Node.new 1 1 true)
           (Node.new 3 0 true) (1, 1) Ha Hb Hg Hdir eq_refl eq_refl).
Defined.

(** X9: [reset] erases every trace of a search: resetting the grid that
    [findPath] leaves behind gives the same grid as resetting the grid it
    was called on. *)
Theorem reset_after_findPath g sx sy ex ey d g' path :
  wf g → findPath g sx sy ex ey d = Returned g' path →
  ∃ g0, reset g = Normal g0 ∧ reset g' = Normal g0.
Proof.
  intros Hwf Hf.
  destruct (findPath_inv g sx sy ex ey d g' path Hwf Hf) as [Hsf _].
  exists (cleared g). split; [by apply reset_wf|].
  rewrite reset_wf by (by eapply same_frame_wf).
  by rewrite (cleared_same_frame g g').
Qed.

Lemma reset_after_findPath_witness :
  ∃ g' path,
    wf wallGrid ∧
    findPath wallGrid 0 0 2 0 false = Returned g' path ∧
    ∃ g0, reset wallGrid = Normal g0 ∧ reset g' = Normal g0.
Proof.
  assert (wf wallGrid) as Hwf by apply wf_blocked, wf_new.
  eexists. eexists. split; [done|].
  refine ((λ Hf, conj Hf
    (reset_after_findPath wallGrid 0 0 2 0 false _ _ Hwf Hf)) _).
  vm_compute. reflexivity.
Defined.

(** * Completeness of the search *)

(** [W] is a walk from [a] to [b]: walkable cells, each one permitted
    direction step from the previous. *)
Definition Walk (g : Grid.t) (diagonal : bool) (a b : Ref) (W : list Coord)
  : Prop :=
  head W = Some a ∧ last W = Some b ∧ Contiguous diagonal W ∧
  ∀ c, c ∈ W → walk g c.

Lemma Walk_cleared g d a b W : wf g → Walk (cleared g) d a b W ↔ Walk g d a b W.
Proof.
  intros Hwf. unfold Walk.
  split; intros (? & ? & ? & Hw); (do 3 (split; [done|]));
    intros c Hc; apply (walk_cleared g c Hwf); auto.
Qed.

(** What [search] returns, read off its definition: the loop stops in a
    state with an empty open set, or in one in which the end node is selected
    and the path is reconstructed from it. *)
Lemma search_result fuel rfuel e d st g' path :
  search fuel rfuel e d st = Returned g' path →
  ∃ st', reaches e d st st' ∧ grid st' = g' ∧
         ((openSet st' = [] ∧ path = []) ∨
          ((∃ i, select st' = Some (e, i)) ∧
           _reconstructPath rfuel (grid st') e = Some path)).
Proof.
  revert st. induction fuel as [|fuel IH]; intros st Hs; simpl in Hs;
    destruct (select st) as [[c i]|] eqn:Hsel; try done.
  - injection Hs as <- <-. exists st. split; [constructor|]. split; [done|].
    left. split; [by apply select_None|done].
  - destruct (decide (c = e)) as [->|Hce].
    + destruct (_reconstructPath rfuel (grid st) e) as [p|] eqn:Hrec; [|done].
      injection Hs as <- <-. exists st. split; [constructor|]. split; [done|].
      right. split; [by exists i|done].
    + destruct (expand e d st c i) as [st1|] eqn:Hexp; [|done].
      destruct (IH st1 Hs) as (st' & Hreach & Hg & Hres).
      exists st'. split; [by eapply reaches_next|done].
  - injection Hs as <- <-. exists st. split; [constructor|]. split; [done|].
    left. split; [by apply select_None|done].
Qed.

Lemma _reconstructPath_loop_length fuel g current acc path :
  _reconstructPath_loop fuel g current acc = Some path →
  (length acc ≤ length path)%nat ∧
  (is_Some current → (length acc < length path)%nat).
Proof.
  revert current acc. induction fuel as [|fuel IH]; intros [c|] acc Hrec;
    simplify_eq/=.
  - split; [lia|]. by intros [? ?].
  - apply IH in Hrec as [Hle _]. simpl in Hle. split; [lia|]. intros _. lia.
  - split; [lia|]. by intros [? ?].
Qed.

Lemma _reconstructPath_nonempty fuel g r path :
  _reconstructPath fuel g r = Some path → path ≠ [].
Proof.
  intros Hrec ->. unfold _reconstructPath in Hrec.
  apply _reconstructPath_loop_length in Hrec as [_ Hlt].
  specialize (Hlt (mk_is_Some _ _ eq_refl)). simpl in Hlt. lia.
Qed.

Section Frontier.
Variables (g0 : Grid.t) (s e : Ref) (d : bool).
Hypothesis Hwf0 : wf g0.

Implicit Types (st : SearchState) (r n c m : Ref).

Local Abbreviation Inv := (Inv g0 s e d).

(** Every walkable neighbour of a closed node has been relaxed from it. *)
Definition Frontier (st : SearchState) : Prop :=
  ∀ c n, c ∈ closedSet st → step_of d c n → walk g0 n → relaxed_at st c n.

Lemma visit_keeps_closed st c m r :
  Inv st → walk g0 m → r ∈ closedSet st →
  node (visit c e st m) r = node st r.
Proof.
  intros HI Hm Hr.
  destruct (visit_effect g0 s e d Hwf0 st c m HI Hm)
    as [[-> _]|(Hmc & _ & _ & Hne & _)]; [done|].
  apply Hne. by intros ->.
Qed.

Lemma visit_keeps_relaxed st c' m c n :
  Inv st → walk g0 m → c ∈ closedSet st →
  relaxed_at st c n → relaxed_at (visit c' e st m) c n.
Proof.
  intros HI Hm Hc Hrel.
  destruct (visit_effect g0 s e d Hwf0 st c' m HI Hm)
    as [[-> _]|(Hmc & Hcl & Hopn & Hne & Hg & Hlt)]; [done|].
  unfold relaxed_at. rewrite Hcl.
  destruct Hrel as [?|[Ho Hle]]; [by left|]. right.
  split; [apply Hopn; by left|].
  rewrite (Hne c) by (by intros ->).
  destruct (decide (m = n)) as [->|Hmn].
  - specialize (Hlt Ho). lia.
  - by rewrite (Hne n).
Qed.

Lemma visit_makes_relaxed st c n :
  Inv st → walk g0 n → c ∈ closedSet st →
  relaxed_at (visit c e st n) c n.
Proof.
  intros HI Hn Hc.
  destruct (visit_effect g0 s e d Hwf0 st c n HI Hn)
    as [[-> Hrel]|(Hnc & Hcl & Hopn & Hne & Hg & Hlt)]; [done|].
  right. split; [apply Hopn; by right|].
  rewrite (Hne c) by (by intros ->). lia.
Qed.

Lemma visit_all_frontier st c ns :
  Inv st → c ∈ closedSet st → s ∈ closedSet st →
  (∀ n, n ∈ ns → step_of d c n ∧ walk g0 n) →
  let st' := foldl (visit c e) st ns in
  (∀ r, r ∈ closedSet st → node st' r = node st r) ∧
  (∀ c0 n, c0 ∈ closedSet st → relaxed_at st c0 n → relaxed_at st' c0 n) ∧
  (∀ n, n ∈ ns → relaxed_at st' c n).
Proof.
  revert st. induction ns as [|m ns IH]; intros st HI Hc Hs Hns.
  { cbn. split; [done|]. split; [done|]. by intros n ?%not_elem_of_nil. }
  cbn zeta. cbn [foldl]. destruct (Hns m) as [Hstep Hwalk]; [left|].
  destruct (Inv_visit g0 s e d Hwf0 st c m HI Hc Hs Hstep Hwalk)
    as [HI1 Hcl1].
  destruct (IH (visit c e st m)) as (Hsame & Hmono & Hnew).
  { done. }
  { by rewrite Hcl1. }
  { by rewrite Hcl1. }
  { intros n Hn. apply Hns. by right. }
  split; [|split].
  - intros r Hr. rewrite Hsame by (by rewrite Hcl1).
    by apply visit_keeps_closed.
  - intros c0 n Hc0 Hrel. apply Hmono; [by rewrite Hcl1|].
    by apply visit_keeps_relaxed.
  - intros n [->|Hn]%elem_of_cons; [|by apply Hnew].
    apply Hmono; [by rewrite Hcl1|]. by apply visit_makes_relaxed.
Qed.

(** One iteration keeps the frontier and does not touch closed nodes, the
    newly closed one included. *)
Lemma expand_frontier st c i st' :
  Inv st → Frontier st → openSet st !! i = Some c → c ≠ e →
  expand e d st c i = Normal st' →
  Frontier st' ∧ ∀ r, r ∈ closedSet st' → node st' r = node st r.
Proof.
  intros HI Hfr Hi Hce Hexp.
  destruct (Inv_close g0 s e d Hwf0 st c i HI Hi Hce) as (HI1 & Hcc & Hs).
  assert (c ∈ openSet st) as Hco by (by eapply list_elem_of_lookup_2).
  assert (walk g0 c) as Hwalk by (apply (inv_walk _ _ _ _ _ HI); by left).
  destruct (getNeighbors_Inv g0 s e d Hwf0 (close st c i) c HI1 Hwalk)
    as (ns & Hns & Hin).
  unfold expand in Hexp. rewrite Hns in Hexp. cbn in Hexp.
  injection Hexp as <-.
  assert (c ∈ closedSet (close st c i)) as Hc1.
  { apply elem_of_closed_add. by left. }
  destruct (visit_all_frontier (close st c i) c ns HI1 Hc1 Hs)
    as (Hsame & Hmono & Hnew).
  { intros n. apply Hin. }
  destruct (Inv_visit_all g0 s e d Hwf0 (close st c i) c ns HI1 Hc1 Hs)
    as [_ Hcl2].
  { intros n. apply Hin. }
  split; [|intros r Hr; apply Hsame; by rewrite <- Hcl2].
  intros c0 n Hc0 Hstep Hn. rewrite Hcl2 in Hc0.
  apply elem_of_closed_add in Hc0 as [->|Hc0].
  - apply Hnew. apply Hin. auto.
  - apply Hmono; [apply elem_of_closed_add; by right|].
    destruct (Hfr c0 n Hc0 Hstep Hn) as [Hcl|[Hop Hg]].
    + left. apply elem_of_closed_add. by right.
    + destruct (decide (n = c)) as [->|Hnc].
      * left. apply elem_of_closed_add. by left.
      * right. split; [|done]. by apply (elem_of_delete_ne _ i c).
Qed.

Lemma reaches_frontier st st' :
  reaches e d st st' → Inv st → Frontier st → Frontier st'.
Proof.
  induction 1 as [|st c i st1 st' Hsel Hce Hexp _ IH]; [done|].
  intros HI Hfr. pose proof (select_first_min st c i Hsel) as [Hi _].
  destruct (expand_frontier st c i st1 HI Hfr Hi Hce Hexp) as [Hfr1 _].
  apply IH; [|done].
  apply (reaches_Inv g0 s e d Hwf0 st st1); [|done].
  eapply reaches_next; [done..|constructor].
Qed.

(** Once the open set is empty, every cell that a walk from a closed cell
    leads to is closed. *)
Lemma closed_of_walk st W a b :
  Inv st → Frontier st → openSet st = [] →
  a ∈ closedSet st → Walk g0 d a b W → b ∈ closedSet st.
Proof.
  intros HI Hfr Ho. revert a.
  induction W as [|a' W IH]; intros a Ha (Hh & Hl & Hc & Hw); [done|].
  simpl in Hh. simplify_eq. destruct W as [|a' W].
  - simpl in Hl. by simplify_eq.
  - assert (a' ∈ closedSet st) as Ha'.
    { destruct (Hfr a a' Ha) as [?|[Hin _]]; [| |done|].
      - by apply (Hc 0%nat).
      - apply Hw. right. left.
      - rewrite Ho in Hin. by apply not_elem_of_nil in Hin. }
    apply (IH a' Ha'). split; [done|]. split; [done|]. split.
    + intros i x y Hx Hy. by apply (Hc (S i)).
    + intros c Hc'. apply Hw. by right.
Qed.
End Frontier.

(** The loop of [findPath], entered on well-formed [g] with walkable
    endpoints, returns from a state that keeps the invariant and the
    frontier. *)
Lemma findPath_final g sx sy ex ey d g' path :
  wf g → walk g (sx, sy) → walk g (ex, ey) →
  findPath g sx sy ex ey d = Returned g' path →
  ∃ st', grid st' = g' ∧
         Inv (cleared g) (sx, sy) (ex, ey) d st' ∧
         Frontier (cleared g) d st' ∧
         reaches (ex, ey) d (start (cleared g) (sx, sy) (ex, ey)) st' ∧
         ((openSet st' = [] ∧ path = []) ∨
          ((∃ i, select st' = Some ((ex, ey), i)) ∧
           _reconstructPath (cells g) g' (ex, ey) = Some path)).
Proof.
  intros Hwf Hs He Hf. unfold findPath, findPath_fuel in Hf.
  rewrite reset_wf in Hf by done.
  pose proof (wf_cleared g Hwf) as Hwf0.
  apply (walk_cleared g _ Hwf) in Hs, He.
  rewrite !getNode_wf, !decide_True in Hf by done.
  destruct (search_result _ _ _ _ _ _ _ Hf) as (st' & Hreach & Hg & Hres).
  assert (Inv (cleared g) (sx, sy) (ex, ey) d
            (start (cleared g) (sx, sy) (ex, ey))) as HI0.
  { apply Inv_start; try done. apply parent_cleared; [done|].
    apply (same_frame_inb g _ _ (same_frame_cleared g)), Hs. }
  exists st'. split; [done|]. split; [by eapply reaches_Inv|].
  split; [|split; [done|by rewrite <- Hg]].
  eapply reaches_frontier; try done.
Qed.

Lemma findPath_connected_aux g sx sy ex ey d g' path :
  wf g → findPath g sx sy ex ey d = Returned g' path →
  path ≠ [] ↔ connected g d (sx, sy) (ex, ey).
Proof.
  intros Hwf Hf.
  destruct (findPath_inv g sx sy ex ey d g' path Hwf Hf) as [_ Hp]. split.
  - intros Hne. destruct Hp as [->|(_ & _ & Hh & Hl & Hc & Hw)]; [done|].
    by exists path.
  - intros (W & Hh & Hl & Hc & Hw) ->.
    assert (walk g (sx, sy)) as Hs by (by eapply Hw, head_Some_elem_of).
    assert (walk g (ex, ey)) as He by (by eapply Hw, last_Some_elem_of).
    destruct (findPath_final g sx sy ex ey d g' [] Hwf Hs He Hf)
      as (st' & _ & HI & Hfr & _ & [[Ho _]|[_ Hrec]]).
    + pose proof (wf_cleared g Hwf) as Hwf0.
      assert ((sx, sy) ∈ closedSet st') as Hcl.
      { destruct (inv_start _ _ _ _ _ HI) as [?|[Ho' _]]; [done|congruence]. }
      apply (proj2 (inv_end _ _ _ _ _ HI)).
      apply (closed_of_walk (cleared g) (sx, sy) (ex, ey) d st' W (sx, sy));
        try done.
      by apply Walk_cleared.
    + by apply _reconstructPath_nonempty in Hrec.
Qed.

(** * The costs and parents along a returned path *)

(** The scratch fields of the nodes of a path: the g cost of a node is its
    index, its parent is its predecessor, and the first node has none. *)
Record PathCosts (st : SearchState) (path : list Coord) : Prop :=
  mk_PathCosts {
    pc_g : ∀ i a, path !! i = Some a →
             known st a ∧ Node.g (node st a) = Z.of_nat i;
    pc_parent : ∀ i a b, path !! i = Some a → path !! S i = Some b →
                  Node.parent (node st b) = Some a;
    pc_root : ∀ a, head path = Some a → Node.parent (node st a) = None
  }.

Section Costs.
Variables (g0 : Grid.t) (s e : Ref) (d : bool).
Hypothesis Hwf0 : wf g0.

Implicit Types (st : SearchState) (r : Ref).

Local Abbreviation Inv := (Inv g0 s e d).

Lemma reconstruct_costs st fuel r acc :
  Inv st → known st r → (Z.to_nat (Node.g (node st r)) < fuel)%nat →
  ∃ path, _reconstructPath_loop fuel (grid st) (Some r) acc
          = Some (path ++ acc) ∧
          last path = Some r ∧
          length path = S (Z.to_nat (Node.g (node st r))) ∧
          PathCosts st path.
Proof.
  intros HI. revert r acc.
  induction fuel as [|fuel IH]; intros r acc Hr Hfuel; [lia|].
  pose proof (inv_walk _ _ _ _ _ HI r Hr) as Hwalk.
  pose proof (Inv_inb g0 s e d st r HI Hwalk) as Hinb.
  pose proof (Inv_wf g0 s e d Hwf0 st HI) as Hwf.
  pose proof (inv_cost _ _ _ _ _ HI r Hr) as (_ & _ & Hgr).
  cbn [_reconstructPath_loop]. rewrite deref_x, deref_y by done.
  replace (r.1, r.2) with r by (by destruct r).
  pose proof (inv_tree _ _ _ _ _ HI r Hr) as Ht. unfold node in *.
  destruct (decide (r = s)) as [->|Hrs].
  - destruct Ht as [Hpar Hg]. rewrite Hpar. exists [s].
    split; [by destruct fuel|]. split; [done|]. split; [by rewrite Hg|].
    split.
    + intros [|i] a Ha; simplify_eq/=. split; [done|]. unfold node. by rewrite Hg.
    + by intros [|i] a b ? ?.
    + intros a [= <-]. done.
  - destruct Ht as (p & Hpar & Hp & Hg & Hstep). rewrite Hpar.
    pose proof (inv_cost _ _ _ _ _ HI p (or_intror Hp)) as (_ & _ & Hgp).
    unfold node in *.
    destruct (IH p (r :: acc)) as (path & -> & Hl & Hlen & [Hpg Hpp Hpr]).
    { by right. }
    { lia. }
    exists (path ++ [r]). split; [by rewrite <- app_assoc|].
    split; [apply last_snoc|]. split; [rewrite length_app, Hlen; simpl; lia|].
    rewrite last_lookup in Hl. split.
    + intros i a [Ha|[Hge Ha]]%lookup_app_Some; [by apply Hpg|].
      apply list_lookup_singleton_Some in Ha as [Hi <-].
      split; [done|]. unfold node. lia.
    + intros i a b Ha [Hb|[Hge Hb]]%lookup_app_Some.
      * pose proof (lookup_lt_Some _ _ _ Hb).
        rewrite lookup_app_l in Ha by lia. by eapply Hpp.
      * apply list_lookup_singleton_Some in Hb as [Hi <-].
        rewrite lookup_app_l in Ha by lia.
        replace (pred (length path)) with i in Hl by lia.
        unfold node. rewrite Hpar. congruence.
    + intros a Ha. apply Hpr. destruct path; [simpl in Hlen; lia|done].
Qed.

(** All that is known of the path that [_reconstructPath] returns. *)
Lemma reconstruct_facts st fuel r path :
  Inv st → known st r →
  _reconstructPath fuel (grid st) r = Some path →
  PathTo g0 s d st r path ∧ PathCosts st path.
Proof.
  intros HI Hr Hrec. unfold _reconstructPath in Hrec.
  set (F := max fuel (S (Z.to_nat (Node.g (node st r))))).
  apply (_reconstructPath_loop_mono _ F) in Hrec; [|lia].
  destruct (reconstruct_Inv g0 s e d Hwf0 st F r [] HI Hr) as (p1 & H1 & Hp1);
    [lia|].
  destruct (reconstruct_costs st F r [] HI Hr) as (p2 & H2 & _ & _ & Hp2);
    [lia|].
  rewrite app_nil_r in H1, H2. by simplify_eq.
Qed.
End Costs.

(** A non-empty result of [findPath], with the state it was reconstructed
    from. *)
Lemma findPath_nonempty g sx sy ex ey d g' path :
  wf g → findPath g sx sy ex ey d = Returned g' path → path ≠ [] →
  ∃ st', grid st' = g' ∧
         Inv (cleared g) (sx, sy) (ex, ey) d st' ∧
         Frontier (cleared g) d st' ∧
         reaches (ex, ey) d (start (cleared g) (sx, sy) (ex, ey)) st' ∧
         (∃ i, select st' = Some ((ex, ey), i)) ∧
         PathTo (cleared g) (sx, sy) d st' (ex, ey) path ∧
         PathCosts st' path.
Proof.
  intros Hwf Hf Hne.
  destruct (findPath_inv g sx sy ex ey d g' path Hwf Hf)
    as [_ [->|(Hs & He & _)]]; [done|].
  destruct (findPath_final g sx sy ex ey d g' path Hwf Hs He Hf)
    as (st' & Hg & HI & Hfr & Hreach & [[_ ->]|[[i Hsel] Hrec]]); [done|].
  exists st'. do 4 (split; [done|]). split; [by exists i|].
  rewrite <- Hg in Hrec.
  apply (reconstruct_facts (cleared g) (sx, sy) (ex, ey) d (wf_cleared g Hwf)
           st' (cells g)); try done.
  left. pose proof (select_first_min st' _ i Hsel) as [Hi _].
  by eapply list_elem_of_lookup_2.
Qed.

(** X10: [findPath] finds a path whenever there is one: the returned path
    is non-empty exactly when a walk over walkable cells, by permitted
    direction steps, leads from the start to the end. *)
Theorem findPath_complete g sx sy ex ey d :
  wf g →
  ∃ g' path,
    findPath g sx sy ex ey d = Returned g' path ∧
    (path ≠ [] ↔
     ∃ W, head W = Some (sx, sy) ∧ last W = Some (ex, ey) ∧
          (∀ c, c ∈ W → ((0 ≤ c.1 ∧ c.1 < width g) ∧
                         (0 ≤ c.2 ∧ c.2 < height g)) ∧
                        Node.walkable (deref g c) = true) ∧
          ∀ i a b, W !! i = Some a → W !! S i = Some b →
                   ∃ dir, dir ∈ directions d ∧
                          b = (a.1 + dir.1, a.2 + dir.2)).
Proof.
  intros Hwf.
  destruct (findPath_returns g sx sy ex ey d Hwf) as (g' & path & Hf & _).
  exists g', path. split; [done|].
  rewrite (findPath_connected_aux g sx sy ex ey d g' path Hwf Hf).
  unfold connected, Contiguous, step_of, offset, walk, inb.
  split; intros (W & Hh & Hl & H1 & H2); exists W; (do 2 (split; [done|]));
    by split.
Qed.

Lemma findPath_complete_witness :
  wf wallGrid ∧
  ∃ g' path,
    findPath wallGrid 0 0 2 0 false = Returned g' path ∧
    (path ≠ [] ↔
     ∃ W, head W = Some (0, 0) ∧ last W = Some (2, 0) ∧
          (∀ c, c ∈ W → ((0 ≤ c.1 ∧ c.1 < width wallGrid) ∧
                         (0 ≤ c.2 ∧ c.2 < height wallGrid)) ∧
                        Node.walkable (deref wallGrid c) = true) ∧
          ∀ i a b, W !! i = Some a → W !! S i = Some b →
                   ∃ dir, dir ∈ directions false ∧
                          b = (a.1 + dir.1, a.2 + dir.2)).
Proof.
  assert (wf wallGrid) as Hwf by apply wf_blocked, wf_new.
  split; [done|]. exact (findPath_complete wallGrid 0 0 2 0 false Hwf).
Defined.



(** X12: the scratch fields that a successful search leaves in the grid
    describe the returned path: the g cost of the i-th cell of the path is i,
    its h is the Manhattan distance to the end, its f is their sum, the
    parent of a cell is its predecessor on the path, and the first cell has
    no parent. *)
Theorem findPath_costs g sx sy ex ey d g' path :
  wf g → findPath g sx sy ex ey d = Returned g' path →
  ∀ i a, path !! i = Some a →
    Node.g (deref g' a) = Z.of_nat i ∧
    Node.h (deref g' a) = Z.abs (a.1 - ex) + Z.abs (a.2 - ey) ∧
    Node.f (deref g' a) = Node.g (deref g' a) + Node.h (deref g' a) ∧
    Node.parent (deref g' a)
    = match i with O => None | S j => path !! j end.
Proof.
  intros Hwf Hf i a Ha.
  assert (path ≠ []) as Hne by (by intros ->).
  destruct (findPath_nonempty g sx sy ex ey d g' path Hwf Hf Hne)
    as (st' & <- & HI & _ & _ & _ & _ & [Hpg Hpp Hpr]).
  destruct (Hpg i a Ha) as [Hk Hgi].
  pose proof (inv_cost _ _ _ _ _ HI a Hk) as (Hh & Hfa & _).
  unfold node in *. do 3 (split; [done|]).
  destruct i as [|j].
  - apply Hpr. by rewrite head_lookup.
  - destruct (lookup_lt_is_Some_2 path j) as [b Hb].
    { apply lookup_lt_Some in Ha. lia. }
    rewrite Hb. by eapply Hpp.
Qed.

Lemma findPath_costs_witness :
  ∃ g',
    wf wallGrid ∧
    findPath wallGrid 0 0 2 0 true
    = Returned g' [(0,0); (0,1); (1,2); (2,1); (2,0)] ∧
    ∀ i a, [(0,0); (0,1); (1,2); (2,1); (2,0)] !! i = Some a →
      Node.g (deref g' a) = Z.of_nat i ∧
      Node.h (deref g' a) = Z.abs (a.1 - 2) + Z.abs (a.2 - 0) ∧
      Node.f (deref g' a) = Node.g (deref g' a) + Node.h (deref g' a) ∧
      Node.parent (deref g' a)
      = match i with
        | O => None
        | S j => [(0,0); (0,1); (1,2); (2,1); (2,0)] !! j
        end.
Proof.
  assert (wf wallGrid) as Hwf by apply wf_blocked, wf_new.
  eexists. split; [done|].
  refine ((λ Hf, conj Hf
    (findPath_costs wallGrid 0 0 2 0 true _ _ Hwf Hf)) _).
  vm_compute. reflexivity.
Defined.

(** * Shortest paths with 4-directional movement *)

Lemma manhattan_step p c e :
  step_of false p c → manhattan p e ≤ 1 + manhattan c e.
Proof.
  intros (dir & Hdir & ->). cbn in Hdir. unfold manhattan, offset.
  repeat (apply elem_of_cons in Hdir as [->|Hdir]); simpl; try lia.
  by apply not_elem_of_nil in Hdir.
Qed.

Lemma Walk_snoc g d a c W x :
  W ≠ [] → Walk g d a c (W ++ [x]) →
  x = c ∧ ∃ p, Walk g d a p W ∧ step_of d p c.
Proof.
  intros Hne (Hh & Hl & Hc & Hw).
  rewrite last_snoc in Hl. injection Hl as ->. split; [done|].
  destruct (last W) as [p|] eqn:Hp; [|by apply last_None in Hp].
  exists p. split.
  - split; [by destruct W|]. split; [done|]. split.
    + intros i x y Hx Hy. apply (Hc i); by apply lookup_app_l_Some.
    + intros y Hy. apply Hw, elem_of_app. by left.
  - rewrite last_lookup in Hp. apply (Hc (pred (length W))).
    + by apply lookup_app_l_Some.
    + replace (S (pred (length W))) with (length W)
        by (destruct W; [done|simpl; lia]).
      by apply list_lookup_middle.
Qed.

Section FourDirections.
Variables (g0 : Grid.t) (s e : Ref).
Hypothesis Hwf0 : wf g0.

Implicit Types (st : SearchState) (r n c p : Ref) (W : list Coord).

Local Abbreviation Inv := (Inv g0 s e false).
Local Abbreviation Frontier := (Frontier g0 false).

(** The g cost of a closed node is the least number of edges of a walk from
    the start to it. *)
Definition Optimal (st : SearchState) : Prop :=
  ∀ c W, c ∈ closedSet st → Walk g0 false s c W →
         Node.g (node st c) ≤ Z.of_nat (length W) - 1.

(** A walk from the start to a node that is not closed crosses the open
    set at a node that costs no more than the walk and the heuristic of its
    end. *)
Lemma frontier_bound st W c :
  Inv st → Frontier st → Optimal st → s ∈ closedSet st →
  Walk g0 false s c W → c ∉ closedSet st →
  ∃ n, n ∈ openSet st ∧
       Node.f (node st n) ≤ Z.of_nat (length W) - 1 + manhattan c e.
Proof.
  intros HI Hfr Hopt Hs. revert c.
  induction W as [|x W IH] using rev_ind; intros c HW Hc.
  { by destruct HW as [? _]. }
  destruct (decide (W = [])) as [->|Hne].
  { destruct HW as ([= ->] & [= ->] & _). done. }
  destruct (Walk_snoc g0 false s c W x Hne HW) as (-> & p & HWp & Hstep).
  pose proof (manhattan_step p c e Hstep) as Hcons.
  rewrite length_app. simpl.
  destruct (decide (p ∈ closedSet st)) as [Hp|Hp].
  - pose proof (Hopt p W Hp HWp) as Hgp.
    assert (walk g0 c) as Hwc.
    { destruct HW as (_ & _ & _ & Hw). apply Hw, elem_of_app. right. left. }
    destruct (Hfr p c Hp Hstep Hwc) as [?|[Ho Hg]]; [done|].
    exists c. split; [done|].
    pose proof (inv_cost _ _ _ _ _ HI c (or_introl Ho)) as (Hh & Hf & _). lia.
  - destruct (IH p HWp Hp) as (n & Hn & Hfn). exists n. split; [done|]. lia.
Qed.

(** The node that an iteration selects has an optimal g cost. *)
Lemma select_optimal st c i W :
  Inv st → Frontier st → Optimal st →
  select st = Some (c, i) → Walk g0 false s c W →
  Node.g (node st c) ≤ Z.of_nat (length W) - 1.
Proof.
  intros HI Hfr Hopt Hsel HW.
  destruct (select_first_min st c i Hsel) as [Hi Hmin].
  assert (c ∈ openSet st) as Hco by (by eapply list_elem_of_lookup_2).
  pose proof (inv_cost _ _ _ _ _ HI c (or_introl Hco)) as (Hh & Hf & Hg).
  destruct (inv_start _ _ _ _ _ HI) as [Hs|[Ho _]].
  - destruct (frontier_bound st W c HI Hfr Hopt Hs HW) as (n & Hn & Hfn).
    { by apply (inv_disj _ _ _ _ _ HI). }
    apply list_elem_of_lookup_1 in Hn as [j Hj].
    destruct (Hmin j n Hj) as [Hle _]. unfold fOf, node in *. lia.
  - assert (known st s) as Hks by (left; rewrite Ho; left).
    rewrite Ho in Hco. apply list_elem_of_singleton in Hco as ->.
    pose proof (inv_tree _ _ _ _ _ HI s Hks) as Ht.
    rewrite decide_True in Ht by done. destruct Ht as [_ ->].
    destruct HW as (Hh' & _). destruct W; [done|simpl; lia].
Qed.

Lemma reaches_optimal st st' :
  reaches e false st st' →
  Inv st → Frontier st → Optimal st →
  Frontier st' ∧ Optimal st'.
Proof.
  induction 1 as [|st c i st1 st' Hsel Hce Hexp _ IH]; [done|].
  intros HI Hfr Hopt. pose proof (select_first_min st c i Hsel) as [Hi _].
  destruct (expand_frontier g0 s e false Hwf0 st c i st1 HI Hfr Hi Hce Hexp)
    as [Hfr1 Hsame].
  destruct (Inv_expand g0 s e false Hwf0 st c i HI Hi Hce)
    as (st2 & Hexp2 & HI1 & _ & Hcl).
  rewrite Hexp in Hexp2. injection Hexp2 as <-.
  apply IH; [done|done|].
  intros r W Hr HW. rewrite (Hsame r Hr). rewrite Hcl in Hr.
  apply elem_of_closed_add in Hr as [->|Hr].
  - by eapply select_optimal.
  - by apply Hopt.
Qed.
End FourDirections.

(** The path returned with 4-directional movement is no longer than any
    walk from the start to the end. *)
Lemma findPath_shortest_aux g sx sy ex ey g' path W :
  wf g → findPath g sx sy ex ey false = Returned g' path →
  Walk g false (sx, sy) (ex, ey) W →
  path ≠ [] ∧ (length path ≤ length W)%nat.
Proof.
  intros Hwf Hf HW.
  assert (path ≠ []) as Hne.
  { apply (findPath_connected_aux g sx sy ex ey false g' path Hwf Hf).
    by exists W. }
  split; [done|].
  destruct (findPath_nonempty g sx sy ex ey false g' path Hwf Hf Hne)
    as (st' & _ & HI & _ & Hreach & [i Hsel] & [_ _ _ _ Hlen] & _).
  pose proof (wf_cleared g Hwf) as Hwf0.
  assert (Inv (cleared g) (sx, sy) (ex, ey) false
            (start (cleared g) (sx, sy) (ex, ey))) as HI0.
  { destruct HW as (Hh' & Hl' & _ & Hw').
    apply Inv_start; try done.
    - apply (walk_cleared g _ Hwf). by eapply Hw', head_Some_elem_of.
    - apply (walk_cleared g _ Hwf). by eapply Hw', last_Some_elem_of.
    - apply parent_cleared; [done|]. by eapply Hw', head_Some_elem_of. }
  destruct (reaches_optimal (cleared g) (sx, sy) (ex, ey) Hwf0 _ _ Hreach HI0)
    as [Hfr Hopt].
  { by intros c n ?%not_elem_of_empty. }
  { by intros c W' ?%not_elem_of_empty. }
  apply (Walk_cleared g false _ _ W Hwf) in HW.
  pose proof (select_optimal (cleared g) (sx, sy) (ex, ey) st' (ex, ey) i W
                HI Hfr Hopt Hsel HW) as Hge.
  pose proof (select_first_min st' _ i Hsel) as [Hi _].
  assert (known st' (ex, ey)) as Hk by (left; by eapply list_elem_of_lookup_2).
  pose proof (inv_cost _ _ _ _ _ HI _ Hk) as (_ & _ & Hg0). lia.
Qed.

(** A non-empty returned path is itself a walk from the start to the end. *)
Lemma findPath_Walk g sx sy ex ey d g' path :
  wf g → findPath g sx sy ex ey d = Returned g' path → path ≠ [] →
  Walk g d (sx, sy) (ex, ey) path.
Proof.
  intros Hwf Hf Hne.
  destruct (findPath_inv g sx sy ex ey d g' path Hwf Hf)
    as [_ [->|(_ & _ & Hh & Hl & Hc & Hw)]]; done.
Qed.

(** X13: with 4-directional movement the returned path is a shortest one:
    whatever walk over walkable cells leads from the start to the end by
    orthogonal steps, [findPath] returns a path, and one with no more
    elements than the walk. *)
Theorem findPath_shortest g sx sy ex ey W :
  wf g →
  head W = Some (sx, sy) → last W = Some (ex, ey) →
  (∀ c, c ∈ W → ((0 ≤ c.1 ∧ c.1 < width g) ∧ (0 ≤ c.2 ∧ c.2 < height g)) ∧
                Node.walkable (deref g c) = true) →
  (∀ i a b, W !! i = Some a → W !! S i = Some b →
            (b.1 - a.1, b.2 - a.2) ∈ [(0, -1); (1, 0); (0, 1); (-1, 0)]) →
  ∃ g' path,
    findPath g sx sy ex ey false = Returned g' path ∧
    path ≠ [] ∧ (length path ≤ length W)%nat.
Proof.
  intros Hwf Hh Hl Hw Hc.
  destruct (findPath_returns g sx sy ex ey false Hwf) as (g' & path & Hf & _).
  exists g', path. split; [done|].
  apply (findPath_shortest_aux g sx sy ex ey g' path W Hwf Hf).
  do 2 (split; [done|]). split.
  - intros i a b Ha Hb. exists (b.1 - a.1, b.2 - a.2).
    split; [by apply (Hc i)|]. destruct b. unfold offset. simpl. f_equal; lia.
  - intros c Hin. by apply Hw.
Qed.

Lemma findPath_shortest_witness :
  wf wallGrid ∧
  ∃ g' path,
    findPath wallGrid 0 0 2 0 false = Returned g' path ∧
    path ≠ [] ∧
    (length path
     ≤ length [(0,0); (0,1); (0,2); (1,2); (2,2); (2,1); (2,2); (2,1); (2,0)])%nat.
Proof.
  assert (wf wallGrid) as Hwf by apply wf_blocked, wf_new.
  assert (∀ c, c ∈ [(0,0); (0,1); (0,2); (1,2); (2,2); (2,1); (2,2); (2,1); (2,0)] →
               ((0 ≤ c.1 ∧ c.1 < width wallGrid) ∧
                (0 ≤ c.2 ∧ c.2 < height wallGrid)) ∧
               Node.walkable (deref wallGrid c) = true) as Hw.
  { intros c Hc. repeat (apply elem_of_cons in Hc as [->|Hc]).
    all: try (by apply not_elem_of_nil in Hc).
    all: split; [vm_compute; intuition discriminate|reflexivity]. }
  assert (∀ i a b,
            [(0,0); (0,1); (0,2); (1,2); (2,2); (2,1); (2,2); (2,1); (2,0)] !! i
            = Some a →
            [(0,0); (0,1); (0,2); (1,2); (2,2); (2,1); (2,2); (2,1); (2,0)] !! S i
            = Some b →
            (b.1 - a.1, b.2 - a.2) ∈ [(0, -1); (1, 0); (0, 1); (-1, 0)]) as Hc.
  { intros i a b Ha Hb.
    do 8 (destruct i as [|i];
          [simpl in Ha, Hb; injection Ha as Ha'; injection Hb as Hb';
           subst a b; in_directions|]).
    destruct i; simpl in Ha, Hb; discriminate. }
  split; [done|].
  exact (findPath_shortest wallGrid 0 0 2 0
           [(0,0); (0,1); (0,2); (1,2); (2,2); (2,1); (2,2); (2,1); (2,0)]
           Hwf eq_refl eq_refl Hw Hc).
Defined.

(** * Queries that compose *)

Lemma step_of_opposite d a b : step_of d a b → step_of d b a.
Proof.
  intros (dir & Hdir & ->). exists (- dir.1, - dir.2).
  split; [by apply directions_opposite|].
  destruct a. unfold offset. simpl. f_equal; lia.
Qed.

Lemma Contiguous_tail d a path : Contiguous d (a :: path) → Contiguous d path.
Proof. intros Hc i x y Hx Hy. by apply (Hc (S i)). Qed.

Lemma Contiguous_reverse d path :
  Contiguous d path → Contiguous d (reverse path).
Proof.
  induction path as [|a path IH]; intros Hc; [done|].
  rewrite reverse_cons. destruct path as [|b path].
  - by intros [|i] x y ? ?.
  - apply (Contiguous_snoc d _ b).
    + apply IH. by eapply Contiguous_tail.
    + by rewrite reverse_cons, last_snoc.
    + apply step_of_opposite. by apply (Hc 0%nat).
Qed.

Lemma Walk_reverse g d a b W : Walk g d a b W → Walk g d b a (reverse W).
Proof.
  intros (Hh & Hl & Hc & Hw). split; [by rewrite head_reverse|].
  split; [by rewrite last_reverse|]. split; [by apply Contiguous_reverse|].
  intros c Hin. apply Hw. by apply elem_of_reverse.
Qed.



(** X15: with 4-directional movement the search is symmetric in length: the
    path from a to b and the path from b to a, on the same grid, have the
    same number of elements. *)
Theorem findPath_symmetric_length g ax ay bx by_ g1 p1 g2 p2 :
  wf g →
  findPath g ax ay bx by_ false = Returned g1 p1 →
  findPath g bx by_ ax ay false = Returned g2 p2 →
  length p1 = length p2.
Proof.
  intros Hwf H1 H2.
  assert (∀ sx sy ex ey ga pa gb pb,
            findPath g sx sy ex ey false = Returned ga pa →
            findPath g ex ey sx sy false = Returned gb pb →
            (length pb ≤ length pa)%nat) as Hle.
  { intros sx sy ex ey ga pa gb pb Ha Hb.
    destruct (decide (pa = [])) as [->|Hne].
    - destruct (decide (pb = [])) as [->|Hnb]; [done|]. exfalso.
      pose proof (findPath_Walk g _ _ _ _ _ _ _ Hwf Hb Hnb) as HW.
      apply Walk_reverse in HW.
      by destruct (findPath_shortest_aux g _ _ _ _ _ _ _ Hwf Ha HW).
    - pose proof (findPath_Walk g _ _ _ _ _ _ _ Hwf Ha Hne) as HW.
      apply Walk_reverse in HW.
      destruct (findPath_shortest_aux g _ _ _ _ _ _ _ Hwf Hb HW) as [_ Hl].
      by rewrite length_reverse in Hl. }
  apply Nat.le_antisymm; eauto.
Qed.

Lemma findPath_symmetric_length_witness :
  ∃ g1 p1 g2 p2,
    wf wallGrid ∧
    findPath wallGrid 0 0 2 0 false = Returned g1 p1 ∧
    findPath wallGrid 2 0 0 0 false = Returned g2 p2 ∧
    length p1 = length p2.
Proof.
  assert (wf wallGrid) as Hwf by apply wf_blocked, wf_new.
  assert (∃ g1 p1, findPath wallGrid 0 0 2 0 false = Returned g1 p1)
    as (g1 & p1 & H1) by (eexists; eexists; vm_compute; reflexivity).
  assert (∃ g2 p2, findPath wallGrid 2 0 0 0 false = Returned g2 p2)
    as (g2 & p2 & H2) by (eexists; eexists; vm_compute; reflexivity).
  exists g1, p1, g2, p2. do 3 (split; [done|]).
  exact (findPath_symmetric_length wallGrid 0 0 2 0 g1 p1 g2 p2 Hwf H1 H2).
Defined.

(** X16: blocking a cell never shortens a 4-directional path: if the search
    on the grid that [setWalkable(x, y, false)] leaves finds a path, the
    search on the grid before the call returns one too, with no more
    elements. *)
Theorem findPath_after_blocking g x y g2 sx sy ex ey gb pb :
  wf g → setWalkable g x y false = Normal g2 →
  findPath g2 sx sy ex ey false = Returned gb pb →
  pb ≠ [] →
  ∃ ga pa,
    findPath g sx sy ex ey false = Returned ga pa ∧
    pa ≠ [] ∧ (length pa ≤ length pb)%nat.
Proof.
  intros Hwf Hset Hb Hnb.
  destruct (setWalkable_wf g x y false Hwf) as (g2' & Hset' & Hwf2).
  rewrite Hset in Hset'. injection Hset' as <-.
  destruct (findPath_returns g sx sy ex ey false Hwf) as (ga & pa & Ha & _).
  exists ga, pa. split; [done|].
  pose proof (findPath_Walk g2 _ _ _ _ _ _ _ Hwf2 Hb Hnb)
    as (Hh & Hl & Hc & Hw).
  apply (findPath_shortest_aux g sx sy ex ey ga pa pb Hwf Ha).
  do 3 (split; [done|]). intros c [Hcb Hcw]%Hw.
  unfold setWalkable in Hset. destruct (_isInBounds g x y) eqn:Hb'.
  - apply _isInBounds_true in Hb'.
    rewrite (deref_slot g (x, y) Hwf Hb') in Hset. injection Hset as <-.
    unfold inb in Hcb. rewrite width_update, height_update in Hcb.
    split; [done|]. destruct (decide ((x, y) = c)) as [<-|Hne].
    + rewrite deref_update_eq in Hcw by (by apply slot_inb). done.
    + by rewrite deref_update_ne in Hcw.
  - by injection Hset as <-.
Qed.

Lemma findPath_after_blocking_witness :
  ∃ g2 gb pb,
    wf (Grid.new 3 3) ∧
    setWalkable (Grid.new 3 3) 1 0 false = Normal g2 ∧
    findPath g2 0 0 2 0 false = Returned gb pb ∧
    pb ≠ [] ∧
    ∃ ga pa,
      findPath (Grid.new 3 3) 0 0 2 0 false = Returned ga pa ∧
      pa ≠ [] ∧ (length pa ≤ length pb)%nat.
Proof.
  assert (wf (Grid.new 3 3)) as Hwf by apply wf_new.
  assert (setWalkable (Grid.new 3 3) 1 0 false
          = Normal (blocked (Grid.new 3 3) [(1, 0)])) as Hset
    by (vm_compute; reflexivity).
  assert (∃ gb pb, findPath (blocked (Grid.new 3 3) [(1, 0)]) 0 0 2 0 false
                   = Returned gb pb ∧ pb ≠ []) as (gb & pb & Hb & Hnb).
  { eexists. eexists. split; [vm_compute; reflexivity|].
    intros Hnil. discriminate Hnil. }
  exists (blocked (Grid.new 3 3) [(1, 0)]), gb, pb.
  do 4 (split; [done|]).
  exact (findPath_after_blocking (Grid.new 3 3) 1 0 _ 0 0 2 0 gb pb
           Hwf Hset Hb Hnb).
Defined.
